(** * gosu command execution: a shallow embedding of [cmd.go]

    The development follows the layout of the source file: Go string helpers
    the code calls, the splitter [splitCommand], the [command] descriptor with
    its [hash], the blocking and asynchronous runners, the process registry
    with [killSpawned], and the scoped directory change [Inside]. *)

From stdpp Require Import gmap strings list fin_maps.
From Stdlib Require Import Ascii ZArith Lia.

Local Open Scope Z_scope.
Local Open Scope nat_scope.

(** ** Go values *)

(** A Go [error] value; [option error] is an [error] that may be [nil]. *)
Definition error := string.

(** What a call yields: a normal return or a run-time panic that unwinds. *)
Inductive outcome (A : Type) : Type :=
  | Ret (a : A)
  | Panic (msg : string).
Arguments Ret {A} a.
Arguments Panic {A} msg.

Definition index_out_of_range : string := "runtime error: index out of range".

(** ** Library functions of package [strings] and [path] *)

Module strings.

(** [strings.HasPrefix(s, prefix)]. *)
Fixpoint HasPrefix (s prefix : string) : bool :=
  match prefix, s with
  | EmptyString, _ => true
  | String _ _, EmptyString => false
  | String c prefix', String d s' =>
      if decide (c = d) then HasPrefix s' prefix' else false
  end.

(** [strings.Contains(s, substr)]: [substr] occurs at some offset of [s]. *)
Fixpoint Contains (s substr : string) : bool :=
  HasPrefix s substr ||
  match s with
  | EmptyString => false
  | String _ s' => Contains s' substr
  end.

(** [strings.HasSuffix(s, suffix)]:
    [len(s) >= len(suffix) && s[len(s)-len(suffix):] == suffix]. *)
Definition HasSuffix (s suffix : string) : bool :=
  let n := String.length s in
  let k := String.length suffix in
  bool_decide (k ≤ n) && bool_decide (String.substring (n - k) k s = suffix).

(** [strings.Join(elems, sep)]. *)
Fixpoint Join (elems : list string) (sep : string) : string :=
  match elems with
  | [] => ""
  | [x] => x
  | x :: rest => x +:+ sep +:+ Join rest sep
  end.

End strings.

Module path.

Definition slash : ascii := "/"%char.

(** Drop the leading slashes of a reversed path, that is the trailing
    slashes of the path. *)
Fixpoint strip_slashes (rev_path : list ascii) : list ascii :=
  match rev_path with
  | c :: rest => if decide (c = slash) then strip_slashes rest else rev_path
  | [] => []
  end.

(** The characters before the first slash of a reversed path: the last
    element of the path, reversed. *)
Fixpoint until_slash (rev_path : list ascii) : list ascii :=
  match rev_path with
  | c :: rest => if decide (c = slash) then [] else c :: until_slash rest
  | [] => []
  end.

(** [path.Base(path)]: the last element of [path]; trailing slashes are
    removed first, the empty path gives ["."], a path of slashes ["/"]. *)
Definition Base (p : string) : string :=
  if decide (p = "") then "."
  else
    let last := until_slash (strip_slashes (rev (String.list_ascii_of_string p))) in
    let p' := String.string_of_list_ascii (rev last) in
    if decide (p' = "") then "/" else p'.

End path.

(** ** Functions imported from other packages

    [str.ToArgv] (github.com/mgutz/str) tokenizes a command line honouring
    shell-style quoting; [ansi.ColorCode] (github.com/mgutz/ansi) gives the
    escape sequence of a colour style; [effectiveEnv] merges the inherited
    environment with the overrides of a command.  Their code is outside this
    file, so the development is parametric in them.  [ToArgv] stands for the
    tokenizer where it returns its words: the tokenizer can panic by itself,
    on a trailing backslash or an unclosed quote, and nothing here is about
    such command lines. *)
Class Imports := {
  ToArgv : string → list string;
  ColorCode : string → string;
  effectiveEnv : list string → list string;
}.

(** ** The splitter *)

(** The state of the [for i, item := range argv] loop of [splitCommand] once
    it stops: it either executed [return] at the first word without ["="], or
    ran off the end of the words with the assignments gathered in [env]. *)
Inductive scan :=
  | Returned (executable : string) (argv env : list string)
  | Exhausted (env : list string).

(** The loop over [items], the words from index [i] on; [argv] is the slice
    the loop ranges over and [env] the assignments gathered so far.  The Go
    code starts [env] at [nil] and builds it with [append]. *)
Fixpoint splitCommand_range (argv : list string) (i : nat)
    (items : list string) (env : list string) : scan :=
  match items with
  | [] => Exhausted env
  | item :: rest =>
      if strings.Contains item "=" then
        match env with
        | [] => splitCommand_range argv (S i) rest [item]
        | _ :: _ => splitCommand_range argv (S i) rest (env ++ [item])
        end
      else Returned item (drop (i + 1) argv) env
  end.

(** [splitCommand] on the words of the command line.  After the loop the code
    reads [argv[0]], which panics on an empty slice. *)
Definition splitCommand_words (argv : list string)
    : outcome (string * list string * list string) :=
  match splitCommand_range argv 0 argv [] with
  | Returned executable argv' env => Ret (executable, argv', env)
  | Exhausted env =>
      match argv with
      | [] => Panic index_out_of_range
      | executable :: argv' => Ret (executable, argv', env)
      end
  end.

(** [splitCommand(command)] returns [(executable, argv, env)]. *)
Definition splitCommand `{Imports} (command : string)
    : outcome (string * list string * list string) :=
  splitCommand_words (ToArgv command).

(** A word the loop takes for an assignment, and one it takes for the
    executable. *)
Definition assignment (word : string) : Prop :=
  strings.Contains word "=" = true.

Definition plain (word : string) : Prop :=
  strings.Contains word "=" = false.

(** ** The command descriptor *)

Record command := {
  executable : string;
  argv : list string;
  env : list string;
  wd : string;
  captureOutput : bool;
  recorder : string;
}.

(** [gcmd.hash()], the key of a command in the process registry. *)
Definition hash (gcmd : command) : string :=
  if bool_decide (0 < length (argv gcmd)) then
    executable gcmd +:+ strings.Join (argv gcmd) ","
  else executable gcmd.

(** ** Processes, the operating system and the package's global variables *)

(** [In], the optional working directory argument. *)
Definition In := list string.

(** An [*os.Process] handle, named by the order in which processes were
    created. *)
Definition Process := nat.

Inductive pstatus :=
  | Running
  | Killed      (* terminated by a signal sent with [Process.Kill] *)
  | Exited.     (* terminated on its own *)

Inductive stream := Stdout | Stderr.

(** Where a child's output stream is connected: the terminal file itself, or
    the wrapper built by [newFileWrapper(file, &gcmd.recorder, color)]. *)
Inductive writer :=
  | File (f : stream)
  | fileWrapper (f : stream) (color : string).

(** The fields of [exec.Cmd] that [toCmd] sets. *)
Record Cmd := {
  Path : string;
  Args : list string;
  Dir : string;
  Env : list string;
  Stdout_of : writer;
  Stderr_of : writer;
}.

(** How far the function literal started by [go] in [runAsync] has run. *)
Inductive gstage :=
  | GSpawned                 (* scheduled, [cmd.Start()] not yet called *)
  | GStarted (p : Process)   (* [cmd.Start()] returned nil *)
  | GWaiting (p : Process)   (* handle stored, blocked in [cmd.Wait()] *)
  | GFailed (e : error)      (* [cmd.Start()] failed, returned at once *)
  | GDone.                   (* [waitgroup.Done()] executed *)

Record goroutine := {
  g_cmd : Cmd;
  g_id : string;
  g_stage : gstage;
}.

(** A call of [util.Error(group, format, process)]. *)
Record log_entry := {
  log_group : string;
  log_format : string;
  log_arg : Process;
}.

Record state := {
  (* the operating system *)
  cwd : string;                       (* working directory of the process *)
  dirs : list string;                 (* directories that can be entered *)
  terminal : list (stream * string);  (* writes to os.Stdout and os.Stderr *)
  processes : list pstatus;           (* children created by [cmd.Start] *)
  (* package variables *)
  spawnedProcesses : gmap string Process;
  waitExit : bool;
  waitgroup : Z;                      (* counter of the sync.WaitGroup *)
  goroutines : list goroutine;
  error_log : list log_entry;
}.

Definition set_cwd (d : string) (s : state) : state :=
  {| cwd := d; dirs := dirs s; terminal := terminal s;
     processes := processes s; spawnedProcesses := spawnedProcesses s;
     waitExit := waitExit s; waitgroup := waitgroup s;
     goroutines := goroutines s; error_log := error_log s |}.

Definition set_dirs (ds : list string) (s : state) : state :=
  {| cwd := cwd s; dirs := ds; terminal := terminal s;
     processes := processes s; spawnedProcesses := spawnedProcesses s;
     waitExit := waitExit s; waitgroup := waitgroup s;
     goroutines := goroutines s; error_log := error_log s |}.

Definition set_terminal (t : list (stream * string)) (s : state) : state :=
  {| cwd := cwd s; dirs := dirs s; terminal := t;
     processes := processes s; spawnedProcesses := spawnedProcesses s;
     waitExit := waitExit s; waitgroup := waitgroup s;
     goroutines := goroutines s; error_log := error_log s |}.

Definition set_processes (ps : list pstatus) (s : state) : state :=
  {| cwd := cwd s; dirs := dirs s; terminal := terminal s;
     processes := ps; spawnedProcesses := spawnedProcesses s;
     waitExit := waitExit s; waitgroup := waitgroup s;
     goroutines := goroutines s; error_log := error_log s |}.

Definition set_spawnedProcesses (m : gmap string Process) (s : state) : state :=
  {| cwd := cwd s; dirs := dirs s; terminal := terminal s;
     processes := processes s; spawnedProcesses := m;
     waitExit := waitExit s; waitgroup := waitgroup s;
     goroutines := goroutines s; error_log := error_log s |}.

Definition set_waitExit (b : bool) (s : state) : state :=
  {| cwd := cwd s; dirs := dirs s; terminal := terminal s;
     processes := processes s; spawnedProcesses := spawnedProcesses s;
     waitExit := b; waitgroup := waitgroup s;
     goroutines := goroutines s; error_log := error_log s |}.

Definition set_waitgroup (n : Z) (s : state) : state :=
  {| cwd := cwd s; dirs := dirs s; terminal := terminal s;
     processes := processes s; spawnedProcesses := spawnedProcesses s;
     waitExit := waitExit s; waitgroup := n;
     goroutines := goroutines s; error_log := error_log s |}.

Definition set_goroutines (gs : list goroutine) (s : state) : state :=
  {| cwd := cwd s; dirs := dirs s; terminal := terminal s;
     processes := processes s; spawnedProcesses := spawnedProcesses s;
     waitExit := waitExit s; waitgroup := waitgroup s;
     goroutines := gs; error_log := error_log s |}.

Definition set_error_log (l : list log_entry) (s : state) : state :=
  {| cwd := cwd s; dirs := dirs s; terminal := terminal s;
     processes := processes s; spawnedProcesses := spawnedProcesses s;
     waitExit := waitExit s; waitgroup := waitgroup s;
     goroutines := goroutines s; error_log := l |}.

(** ** Computations: state passing with panics *)

Definition M (A : Type) : Type := state → outcome A * state.

Global Instance M_ret : MRet M := λ A a s, (Ret a, s).

Global Instance M_bind : MBind M := λ A B k m s,
  match m s with
  | (Ret a, s') => k a s'
  | (Panic msg, s') => (Panic msg, s')
  end.

Definition panic {A} (msg : string) : M A := λ s, (Panic msg, s).

(** [defer d] around [body]: [d] runs when [body] returns and also when it
    panics; the result (or the panic) of [body] is what the caller sees,
    unless [d] panics itself. *)
Definition defer {A} (d : M unit) (body : M A) : M A :=
  λ s, match body s with
       | (r, s') =>
           match d s' with
           | (Ret _, s'') => (r, s'')
           | (Panic msg, s'') => (Panic msg, s'')
           end
       end.

Ltac unfold_go :=
  unfold mbind, M_bind, mret, M_ret, panic in *.

(** The behaviour of a child process that is run to completion: what it
    writes, in order, and the error [cmd.Run()] reports ([nil] for exit
    status 0).  [tee] is the [Write] of the wrapper made by [newFileWrapper],
    whose code is outside this file: from the colour and the bytes written it
    gives the bytes sent to the terminal and the bytes added to the
    recorder. *)
Class Host := {
  child : Cmd → state → list (stream * string) * option error;
  tee : string → string → string * string;
}.

(** ** Operating system calls *)

Definition is_abs (p : string) : bool := strings.HasPrefix p "/".

(** The directory a path names when looked up from directory [from]; paths
    are compared as written, without resolving dots or links. *)
Definition resolve (from p : string) : string :=
  if is_abs p then p else from +:+ "/" +:+ p.

(** [os.Getwd()]: fails when the working directory no longer exists. *)
Definition os_Getwd : M (string * option error) := λ s,
  if decide (cwd s ∈ dirs s) then (Ret (cwd s, None), s)
  else (Ret ("", Some "getwd: no such file or directory"), s).

(** [os.Chdir(dir)]. *)
Definition os_Chdir (dir : string) : M (option error) := λ s,
  let target := resolve (cwd s) dir in
  if decide (target ∈ dirs s) then (Ret None, set_cwd target s)
  else (Ret (Some ("chdir " +:+ dir +:+ ": no such file or directory")), s).

(** [process.Kill()]: signals a running process, fails on a finished one.
    The real call can also fail on a running process (that is the error
    [killSpawned] logs and passes over); here it fails on finished
    processes only. *)
Definition Process_Kill (process : Process) : M (option error) := λ s,
  match processes s !! process with
  | Some Running =>
      (Ret None, set_processes (<[process := Killed]> (processes s)) s)
  | _ => (Ret (Some "os: process already finished"), s)
  end.

(** Modelled from the spec: [util.Error], of the package's [util] directory,
    is outside this file.  The spec calls it a logging side channel: the
    call adds a line to a log and has no other effect. *)
Definition util_Error (group format : string) (process : Process) : M unit :=
  λ s, (Ret tt,
        set_error_log
          (error_log s ++
           [{| log_group := group; log_format := format; log_arg := process |}])
          s).

(** Modelled from the spec: the variables [waitgroup] and [waitExit] are
    declared outside this file.  The spec describes a counter of outstanding
    processes, raised on an asynchronous start and lowered on exit, next to
    a flag; the counter is taken to be a [sync.WaitGroup].
    [waitgroup.Add(delta)]; [waitgroup.Done()] is [waitgroup.Add(-1)].  A
    counter that would go negative makes the call panic. *)
Definition waitgroup_Add (delta : Z) : M unit := λ s,
  let n := (waitgroup s + delta)%Z in
  if bool_decide (n < 0)%Z then (Panic "sync: negative WaitGroup counter", s)
  else (Ret tt, set_waitgroup n s).

(** [waitgroup.Wait()] returns only once the counter is zero. *)
Definition waitgroup_Wait_returns (s : state) : bool :=
  bool_decide (waitgroup s = 0%Z).


Section Engine.
Context `{Imports} `{Host}.

(** One [Write] on a stream of the child, with the recorder before it; gives
    the recorder after it. *)
Definition write (w : writer) (bytes : string) (rec : string) (s : state)
    : string * state :=
  match w with
  | File f => (rec, set_terminal (terminal s ++ [(f, bytes)]) s)
  | fileWrapper f color =>
      let '(shown, kept) := tee color bytes in
      (rec +:+ kept, set_terminal (terminal s ++ [(f, shown)]) s)
  end.

Fixpoint deliver (cmd : Cmd) (out : list (stream * string)) (rec : string)
    (s : state) : string * state :=
  match out with
  | [] => (rec, s)
  | (f, bytes) :: rest =>
      let w := match f with Stdout => Stdout_of cmd | Stderr => Stderr_of cmd end in
      let '(rec', s') := write w bytes rec s in
      deliver cmd rest rec' s'
  end.

(** [cmd.Run()]: start the child, pass on what it writes, wait for it.  The
    wrappers write into the recorder of the command through a pointer; here
    the recorder goes in and comes out next to the error.  The child is
    taken to exit and to change nothing of the state but the terminal.  With
    wrappers, [exec.Cmd] copies the two streams from two goroutines into the
    one recorder; [deliver] serves the writes one after another, so nothing
    is stated here about the contents of the recorder of a capturing run. *)
Definition Cmd_Run (cmd : Cmd) (rec : string) : M (string * option error) :=
  λ s, let '(out, err) := child cmd s in
       let '(rec', s') := deliver cmd out rec s in
       (Ret (rec', err), s').

(** ** The functions of [cmd.go] *)

Definition getWd (wd : list In) : M (string * option error) :=
  match wd with
  | [d] =>
      match d with
      | dir :: _ => mret (dir, None)
      | [] => panic index_out_of_range
      end
  | _ => os_Getwd
  end.

(** [gcmd.toCmd()].  [exec.Command] puts the name in front of the arguments;
    [Path] is the name as given (the search in PATH is left to the start of
    the process).  [cmd.Stdin] is always [os.Stdin] and is left out. *)
Definition toCmd (gcmd : command) : Cmd * option error :=
  ({| Path := executable gcmd;
      Args := executable gcmd :: argv gcmd;
      Dir := if decide (wd gcmd ≠ "") then wd gcmd else "";
      Env := effectiveEnv (env gcmd);
      Stdout_of :=
        if captureOutput gcmd then fileWrapper Stdout "" else File Stdout;
      Stderr_of :=
        if captureOutput gcmd then fileWrapper Stderr (ColorCode "red+b")
        else File Stderr |},
   None).

(** [gcmd.run()] returns [(output, err)]. *)
Definition command_run (gcmd : command) : M (string * option error) :=
  let '(cmd, err) := toCmd gcmd in
  match err with
  | Some e => mret ("", Some e)
  | None =>
      '(rec, err) ← Cmd_Run cmd (recorder gcmd);
      if captureOutput gcmd then mret (rec, err) else mret ("", err)
  end.

(** [run(captureOutput, commandstr, wd)] returns [(output, err)]. *)
Definition run (capture : bool) (commandstr : string) (wd : list In)
    : M (string * option error) :=
  '(dir, err) ← getWd wd;
  match err with
  | Some e => mret ("", Some e)
  | None =>
      match splitCommand commandstr with
      | Panic msg => panic msg
      | Ret (executable, argv, env) =>
          command_run {| executable := executable; wd := dir; env := env;
                         argv := argv; captureOutput := capture;
                         recorder := "" |}
      end
  end.

Definition Run (commandstr : string) (wd : list In) : M (option error) :=
  '(_, err) ← run false commandstr wd;
  mret err.

Definition RunOutput (commandstr : string) (wd : list In)
    : M (string * option error) :=
  run true commandstr wd.

Definition lookup_spawned (command : string) : M (option Process) :=
  λ s, (Ret (spawnedProcesses s !! command), s).

(** [killSpawned(command)]; a missing key reads as the nil process. *)
Definition killSpawned (command : string) : M unit :=
  process ← lookup_spawned command;
  match process with
  | None => mret tt
  | Some process =>
      err ← Process_Kill process;
      match err with
      | Some _ =>
          util_Error "Start" "Could not kill existing process %+v\n" process
      | None => mret tt
      end
  end.

(** The [go func() { ... }()] statement: the function literal is scheduled
    and has not run yet. *)
Definition go (cmd : Cmd) (id : string) : M unit := λ s,
  (Ret tt,
   set_goroutines
     (goroutines s ++ [{| g_cmd := cmd; g_id := id; g_stage := GSpawned |}]) s).

Definition set_waitExit_true : M unit := λ s, (Ret tt, set_waitExit true s).

(** [gcmd.runAsync()]. *)
Definition runAsync (gcmd : command) : M (option error) :=
  let '(cmd, err) := toCmd gcmd in
  match err with
  | Some e => mret (Some e)
  | None =>
      let id := hash gcmd in
      killSpawned id;;
      set_waitExit_true;;
      waitgroup_Add 1;;
      go cmd id;;
      mret None
  end.

(** The unit that [runAsync gcmd] schedules. *)
Definition unit_of (gcmd : command) : goroutine :=
  {| g_cmd := (toCmd gcmd).1; g_id := hash gcmd; g_stage := GSpawned |}.

(** [Start(commandstr, wd...)]. *)
Definition Start (commandstr : string) (wd : list In) : M (option error) :=
  '(dir, err) ← getWd wd;
  match err with
  | Some e => mret (Some e)
  | None =>
      match splitCommand commandstr with
      | Panic msg => panic msg
      | Ret (executable, argv, env) =>
          let isGoFile := strings.HasSuffix executable ".go" in
          let launch (executable : string) :=
            runAsync {| executable := executable; wd := dir; env := env;
                        argv := argv; captureOutput := false;
                        recorder := "" |} in
          if isGoFile then
            err ← Run "go install" wd;
            match err with
            | Some e => mret (Some e)
            | None => launch (path.Base dir)
            end
          else launch executable
      end
  end.

(** The descriptor [Start] hands to [runAsync]. *)
Definition async_command (executable dir : string) (argv env : list string)
    : command :=
  {| executable := executable; wd := dir; env := env; argv := argv;
     captureOutput := false; recorder := "" |}.

(** [Inside(dir, lambda)]. *)
Definition Inside (dir : string) (lambda : M unit) : M (option error) :=
  '(olddir, err) ← os_Getwd;
  match err with
  | Some e => mret (Some e)
  | None =>
      err ← os_Chdir dir;
      match err with
      | Some e => mret (Some e)
      | None => defer (os_Chdir olddir;; mret tt) (lambda;; mret None)
      end
  end.

End Engine.

(** ** Background execution units and schedules

    [Start] returns as soon as the function literal is scheduled; the literal
    then runs in steps that interleave with the caller and with the other
    units.  A schedule lists, in the order they happen, the calls of [Start]
    made by the caller, the steps of the units, and the exits of processes.
    Each call of [Start] is one entry of a schedule. *)
Inductive event :=
  | CallStart (commandstr : string) (wd : list In)
  | GoStart (g : nat) (r : option error)  (* [err = cmd.Start()] giving [r] *)
  | GoStore (g : nat)            (* [spawnedProcesses[id] = cmd.Process] *)
  | GoDone (g : nat)             (* [cmd.Wait()] returned; [waitgroup.Done()] *)
  | ProcExit (p : Process).      (* a running process ends on its own *)

Definition with_stage (st : gstage) (gr : goroutine) : goroutine :=
  {| g_cmd := g_cmd gr; g_id := g_id gr; g_stage := st |}.

Definition set_stage (g : nat) (st : gstage) (s : state) : state :=
  set_goroutines (alter (with_stage st) g (goroutines s)) s.

Definition stage_of (g : nat) (s : state) : option gstage :=
  g_stage <$> goroutines s !! g.

Section Schedules.
Context `{Imports} `{Host}.

(** One event; [None] when the event cannot happen in [s], or when it makes
    the program panic. *)
Definition step (ev : event) (s : state) : option state :=
  match ev with
  | CallStart commandstr wd =>
      match Start commandstr wd s with
      | (Ret _, s') => Some s'
      | (Panic _, _) => None
      end
  | GoStart g r =>
      match stage_of g s, r with
      | Some GSpawned, Some e => Some (set_stage g (GFailed e) s)
      | Some GSpawned, None =>
          let p := length (processes s) in
          Some (set_stage g (GStarted p)
                  (set_processes (processes s ++ [Running]) s))
      | _, _ => None
      end
  | GoStore g =>
      match goroutines s !! g with
      | Some gr =>
          match g_stage gr with
          | GStarted p =>
              Some (set_stage g (GWaiting p)
                      (set_spawnedProcesses
                         (<[g_id gr := p]> (spawnedProcesses s)) s))
          | _ => None
          end
      | None => None
      end
  | GoDone g =>
      match stage_of g s with
      | Some (GWaiting p) =>
          match processes s !! p with
          | Some Running => None
          | _ =>
              match waitgroup_Add (-1) s with
              | (Ret _, s') => Some (set_stage g GDone s')
              | (Panic _, _) => None
              end
          end
      | _ => None
      end
  | ProcExit p =>
      match processes s !! p with
      | Some Running =>
          Some (set_processes (<[p := Exited]> (processes s)) s)
      | _ => None
      end
  end.

Fixpoint exec (evs : list event) (s : state) : option state :=
  match evs with
  | [] => Some s
  | ev :: rest =>
      match step ev s with
      | Some s' => exec rest s'
      | None => None
      end
  end.

End Schedules.

(** The state of a program that has not called [Start] yet. *)
Definition fresh (dir : string) (ds : list string) : state :=
  {| cwd := dir; dirs := ds; terminal := []; processes := [];
     spawnedProcesses := ∅; waitExit := false; waitgroup := 0;
     goroutines := []; error_log := [] |}.

(** A unit that has not executed [waitgroup.Done()]. *)
Definition owes_Done (gr : goroutine) : bool :=
  match g_stage gr with GDone => false | _ => true end.

Definition count_of (f : goroutine → bool) (gs : list goroutine) : nat :=
  length (List.filter f gs).

(** ** A small host for examples

    Words are separated by single spaces, no colours, the environment is the
    overrides alone; a child writes one line on each stream and fails exactly
    when it runs in directory ["/broken"]. *)
Fixpoint fields_from (cur : string) (cs : list ascii) : list string :=
  match cs with
  | [] => if decide (cur = "") then [] else [cur]
  | c :: rest =>
      if decide (c = " "%char) then
        (if decide (cur = "") then [] else [cur]) ++ fields_from "" rest
      else fields_from (cur +:+ String c "") rest
  end.

Definition fields (s : string) : list string :=
  fields_from "" (String.list_ascii_of_string s).

Definition example_imports : Imports :=
  {| ToArgv := fields; ColorCode := λ _, ""; effectiveEnv := λ e, e |}.

Definition example_host : Host :=
  {| child := λ cmd _,
       ([(Stdout, "out"); (Stderr, "err")],
        if decide (Dir cmd = "/broken") then Some "exit status 1" else None);
     tee := λ color bytes, (color +:+ bytes, bytes) |}.

(** Two commands used in the examples: executable ["ab"] without arguments,
    and executable ["a"] with the argument ["b"]. *)
Definition cmd_ab : command :=
  {| executable := "ab"; argv := []; env := []; wd := "/srv";
     captureOutput := false; recorder := "" |}.

Definition cmd_a_b : command :=
  {| executable := "a"; argv := ["b"]; env := []; wd := "/srv";
     captureOutput := false; recorder := "" |}.

(** A state in which the registry holds, for ["server"], the handle of a
    process that has already exited. *)
Definition stale_state : state :=
  set_spawnedProcesses {["server" := 0]}
    (set_processes [Exited] (fresh "/srv" ["/srv"])).

(** The line [killSpawned] logs about [process]. *)
Definition kill_failure (process : Process) : log_entry :=
  {| log_group := "Start";
     log_format := "Could not kill existing process %+v\n";
     log_arg := process |}.

(** A callback that removes directory [d], as [os.RemoveAll(d)] would. *)
Definition remove_dir (d : string) : M unit := λ s,
  (Ret tt, set_dirs (List.filter (λ x, negb (bool_decide (x = d))) (dirs s)) s).

(** A program in ["/srv"], with ["/tmp"] next to it. *)
Definition two_dirs : state := fresh "/srv" ["/srv"; "/tmp"].

(** The process table after [killSpawned id]: the process stored under [id]
    is marked killed if it was running. *)
Definition kill_table (reg : gmap string Process) (id : string)
    (ps : list pstatus) : list pstatus :=
  match reg !! id with
  | Some p =>
      match ps !! p with
      | Some Running => <[p := Killed]> ps
      | _ => ps
      end
  | None => ps
  end.

(** The counter of the wait group equals the number of units that have not
    executed [waitgroup.Done()], and the flag is set once a unit exists. *)
Definition barrier_inv (s : state) : Prop :=
  waitgroup s = Z.of_nat (count_of owes_Done (goroutines s))
  ∧ (goroutines s = [] ∨ waitExit s = true).

(** ** Supersession: the notions used to state it *)

Definition running (ps : list pstatus) (p : Process) : bool :=
  match ps !! p with Some Running => true | _ => false end.

(** A unit whose process has been created and is running. *)
Definition live (ps : list pstatus) (gr : goroutine) : bool :=
  match g_stage gr with
  | GStarted p | GWaiting p => running ps p
  | _ => false
  end.

(** A unit that may still store a handle: it has not yet reached the
    statement [spawnedProcesses[id] = cmd.Process] nor returned before it. *)
Definition unsettled (gr : goroutine) : bool :=
  match g_stage gr with GSpawned | GStarted _ => true | _ => false end.

Definition settled (s : state) : bool :=
  forallb (λ gr, negb (unsettled gr)) (goroutines s).

(** At most one running process for each key: two units with the same key
    whose processes are both running are one and the same unit. *)
Definition at_most_one_live (s : state) : Prop :=
  ∀ g1 g2 gr1 gr2,
    goroutines s !! g1 = Some gr1 →
    goroutines s !! g2 = Some gr2 →
    g_id gr1 = g_id gr2 →
    live (processes s) gr1 = true →
    live (processes s) gr2 = true →
    g1 = g2.

Section Orderly.
Context `{Imports} `{Host}.

(** A schedule is orderly when the caller makes each call of [Start] only
    after the units of the earlier calls have stored their handle or have
    returned. *)
Fixpoint orderly (evs : list event) (s : state) : bool :=
  match evs with
  | [] => true
  | ev :: rest =>
      match ev with CallStart _ _ => settled s | _ => true end
      && match step ev s with
         | Some s' => orderly rest s'
         | None => true
         end
  end.

End Orderly.

(** What holds in every state of an orderly schedule. *)
Record sched_inv (s : state) : Prop := {
  inv_bounds :
    ∀ g gr p,
      goroutines s !! g = Some gr →
      g_stage gr = GStarted p ∨ g_stage gr = GWaiting p →
      p < length (processes s);
  inv_one_live : at_most_one_live s;
  inv_stored :
    ∀ g gr p,
      goroutines s !! g = Some gr →
      g_stage gr = GWaiting p →
      running (processes s) p = true →
      spawnedProcesses s !! g_id gr = Some p;
  inv_last :
    ∀ g gr,
      goroutines s !! g = Some gr →
      unsettled gr = true →
      S g = length (goroutines s);
  inv_alone :
    ∀ g gr g' gr',
      goroutines s !! g = Some gr →
      unsettled gr = true →
      goroutines s !! g' = Some gr' →
      g' ≠ g →
      g_id gr' = g_id gr →
      live (processes s) gr' = false;
}.

(** Two calls of [Start] with the same command line, both made before the
    unit of the first has run; then both units start their process and
    store its handle. *)
Definition racing : list event :=
  [CallStart "server" []; CallStart "server" [];
   GoStart 0 None; GoStart 1 None; GoStore 0; GoStore 1].

(** The same two calls, the second made after the unit of the first has
    stored its handle. *)
Definition hand_over : list event :=
  [CallStart "server" []; GoStart 0 None; GoStore 0;
   CallStart "server" []; GoStart 1 None; GoStore 1].

(** The first call alone, up to the store of its handle. *)
Definition first_stored : list event :=
  [CallStart "server" []; GoStart 0 None; GoStore 0].

(** ** The shell entry points *)

Section Shell.
Context `{Imports} `{Host}.

(** [bash(captureOutput, script, wd)] returns [(output, err)]; the command
    it builds has no [env]. *)
Definition bash (capture : bool) (script : string) (wd : list In)
    : M (string * option error) :=
  '(dir, err) ← getWd wd;
  match err with
  | Some e => mret ("", Some e)
  | None =>
      command_run {| executable := "bash"; argv := ["-c"; script];
                     env := []; wd := dir; captureOutput := capture;
                     recorder := "" |}
  end.

Definition Bash (script : string) (wd : list In) : M (option error) :=
  '(_, err) ← bash false script wd;
  mret err.

Definition BashOutput (script : string) (wd : list In)
    : M (string * option error) :=
  bash true script wd.

End Shell.

(** ** [toInt] *)

(** The value of a decimal digit character. *)
Definition digit_of (c : ascii) : option Z :=
  let n := Z.of_nat (nat_of_ascii c) in
  if bool_decide (48 ≤ n ≤ 57)%Z then Some (n - 48)%Z else None.

(** The number read from a run of digits, continuing from [acc]; [None] at
    the first character that is not a digit. *)
Fixpoint parse_digits (acc : Z) (cs : list ascii) : option Z :=
  match cs with
  | [] => Some acc
  | c :: rest =>
      match digit_of c with
      | Some d => parse_digits (acc * 10 + d) rest
      | None => None
      end
  end.

(** [strconv.Atoi(s)] for an [int] of [intSize] bits: an optional sign and
    at least one decimal digit, nothing else; a number that does not fit is
    a range error and gives the nearest bound. *)
Definition Atoi (intSize : Z) (s : string) : Z * option error :=
  let cs := String.list_ascii_of_string s in
  let '(neg, digits) :=
    match cs with
    | c :: rest =>
        if decide (c = "-"%char) then (true, rest)
        else if decide (c = "+"%char) then (false, rest)
        else (false, cs)
    | [] => (false, cs)
    end in
  match digits with
  | [] => (0%Z, Some "strconv.Atoi: invalid syntax")
  | _ :: _ =>
      match parse_digits 0 digits with
      | None => (0%Z, Some "strconv.Atoi: invalid syntax")
      | Some n =>
          let cutoff := (2 ^ (intSize - 1))%Z in
          if neg then
            if bool_decide (n ≤ cutoff)%Z then ((- n)%Z, None)
            else ((- cutoff)%Z, Some "strconv.Atoi: value out of range")
          else
            if bool_decide (n < cutoff)%Z then (n, None)
            else ((cutoff - 1)%Z, Some "strconv.Atoi: value out of range")
      end
  end.

(** [toInt(s)]. *)
Definition toInt (intSize : Z) (s : string) : Z :=
  match Atoi intSize s with
  | (result, None) => result
  | (_, Some _) => 0%Z
  end.

(** The number a run of digit values denotes, most significant first. *)
Fixpoint decimal (ds : list Z) : Z :=
  match ds with
  | [] => 0
  | d :: rest => d * 10 ^ Z.of_nat (length rest) + decimal rest
  end.

(** The character of a digit value. *)
Definition digit_char (d : Z) : ascii := ascii_of_nat (Z.to_nat (48 + d)).

Definition digits_string (ds : list Z) : string :=
  String.string_of_list_ascii (digit_char <$> ds).

(** Every handle in the registry is that of a created process, and it was
    stored by a unit of that key. *)
Definition registry_inv (s : state) : Prop :=
  (∀ g gr p,
     goroutines s !! g = Some gr →
     g_stage gr = GStarted p ∨ g_stage gr = GWaiting p →
     p < length (processes s))
  ∧ (∀ id p,
       spawnedProcesses s !! id = Some p →
       p < length (processes s)
       ∧ ∃ g gr,
           goroutines s !! g = Some gr
           ∧ g_id gr = id
           ∧ (g_stage gr = GWaiting p ∨ g_stage gr = GDone)).

(** * Properties *)

(** ** Evaluation on small inputs *)

Example HasSuffix_go : strings.HasSuffix "server.go" ".go" = true.
Proof. reflexivity. Qed.

Example HasSuffix_short : strings.HasSuffix "go" ".go" = false.
Proof. reflexivity. Qed.

Example Contains_eq : strings.Contains "A=1" "=" = true.
Proof. reflexivity. Qed.

Example Contains_none : strings.Contains "echo" "=" = false.
Proof. reflexivity. Qed.

Example Join_three : strings.Join ["a"; "b"; "c"] "," = "a,b,c".
Proof. reflexivity. Qed.

Example Base_dir : path.Base "/home/me/app/" = "app".
Proof. reflexivity. Qed.

Example Base_root : path.Base "//" = "/".
Proof. reflexivity. Qed.

Example splitCommand_words_spec_example :
  splitCommand_words ["A=1"; "B=2"; "echo"; "hi"]
  = Ret ("echo", ["hi"], ["A=1"; "B=2"]).
Proof. reflexivity. Qed.

Example splitCommand_words_fallback :
  splitCommand_words ["A=1"] = Ret ("A=1", [], ["A=1"]).
Proof. reflexivity. Qed.

Example splitCommand_words_empty :
  splitCommand_words [] = Panic index_out_of_range.
Proof. reflexivity. Qed.

Example fields_example : fields "A=1 B=2 echo hi" = ["A=1"; "B=2"; "echo"; "hi"].
Proof. reflexivity. Qed.


(** ** The splitter *)

Section SplitterFacts.
Context `{Imports}.

(** Both ways the loop extends [env] add the word at the end. *)
Lemma range_assignment argv i item rest env :
  assignment item →
  splitCommand_range argv i (item :: rest) env
  = splitCommand_range argv (S i) rest (env ++ [item]).
Proof.
  intros Hitem. simpl. rewrite Hitem. by destruct env.
Qed.

Lemma range_plain argv i item rest env :
  plain item →
  splitCommand_range argv i (item :: rest) env
  = Returned item (drop (i + 1) argv) env.
Proof. intros Hitem. simpl. by rewrite Hitem. Qed.

(** The loop passes over leading assignments and returns at the first plain
    word. *)
Lemma range_leading argv assignments :
  ∀ i env word rest,
    Forall assignment assignments →
    plain word →
    splitCommand_range argv i (assignments ++ word :: rest) env
    = Returned word (drop (i + length assignments + 1) argv)
        (env ++ assignments).
Proof.
  induction assignments as [|a l IH]; intros i env word rest Hall Hword.
  - rewrite app_nil_r. simpl app. rewrite range_plain by done.
    do 2 f_equal. simpl. lia.
  - inversion_clear Hall as [|? ? Ha Hl].
    change ((a :: l) ++ word :: rest) with (a :: (l ++ word :: rest)).
    rewrite range_assignment by done. rewrite IH by done.
    rewrite <- app_assoc. simpl. do 2 f_equal. lia.
Qed.

(** With assignments only, the loop runs to its end. *)
Lemma range_exhausted argv items :
  ∀ i env,
    Forall assignment items →
    splitCommand_range argv i items env = Exhausted (env ++ items).
Proof.
  induction items as [|a l IH]; intros i env Hall.
  - by rewrite app_nil_r.
  - inversion_clear Hall as [|? ? Ha Hl].
    rewrite range_assignment by done. rewrite IH by done.
    by rewrite <- app_assoc.
Qed.

Lemma splitCommand_words_leading assignments word rest :
  Forall assignment assignments →
  plain word →
  splitCommand_words (assignments ++ word :: rest)
  = Ret (word, rest, assignments).
Proof.
  intros Hall Hword. unfold splitCommand_words.
  rewrite range_leading by done. simpl.
  do 2 f_equal. induction assignments as [|a l IH]; [done|].
  inversion_clear Hall. simpl. auto.
Qed.

End SplitterFacts.

(** C1.  When the command line tokenizes into N leading words that contain
    ["="] followed by M >= 1 words that do not, [splitCommand] returns the
    first of the M words as the executable, the N assignments in their
    order as [env], and the other M-1 words in their order as [argv]. *)
Theorem splitCommand_assignments_then_words `{Imports}
    (command : string) (assignments : list string) (word : string)
    (rest : list string) :
  ToArgv command = assignments ++ word :: rest →
  Forall assignment assignments →
  Forall plain (word :: rest) →
  splitCommand command = Ret (word, rest, assignments).
Proof.
  intros Hwords Hassign Hplain. unfold splitCommand. rewrite Hwords.
  inversion_clear Hplain as [|? ? Hword Hrest].
  by apply splitCommand_words_leading.
Qed.

Lemma splitCommand_assignments_then_words_witness :
  @splitCommand example_imports "A=1 B=2 echo hi"
  = Ret ("echo", ["hi"], ["A=1"; "B=2"]).
Proof.
  apply (@splitCommand_assignments_then_words example_imports
           "A=1 B=2 echo hi" ["A=1"; "B=2"] "echo" ["hi"]).
  - reflexivity.
  - repeat constructor.
  - repeat constructor.
Defined.

(** C6, as the code has it.  When the command line has at least one word
    and every word contains ["="], the loop finds no executable and
    [splitCommand] falls back to the first word as the executable and the
    other words as [argv]; it does not panic.  (All the words, the first
    included, are in [env].) *)
Theorem splitCommand_all_assignments `{Imports}
    (command : string) (first : string) (rest : list string) :
  ToArgv command = first :: rest →
  Forall assignment (first :: rest) →
  splitCommand command = Ret (first, rest, first :: rest).
Proof.
  intros Hwords Hall. unfold splitCommand, splitCommand_words.
  rewrite Hwords. by rewrite range_exhausted.
Qed.

Lemma splitCommand_all_assignments_witness :
  @splitCommand example_imports "A=1" = Ret ("A=1", [], ["A=1"]).
Proof.
  apply (@splitCommand_all_assignments example_imports "A=1" "A=1" []).
  - reflexivity.
  - repeat constructor.
Defined.

(** The claim C6 as stated, for every non-empty command line, fails on a
    line of blanks: it is not empty, it has no word, so every word it has
    contains ["="], and [splitCommand] panics at [argv[0]]. *)
Lemma splitCommand_blank_line_panics :
  " " ≠ ""
  ∧ @ToArgv example_imports " " = []
  ∧ Forall assignment (@ToArgv example_imports " ")
  ∧ @splitCommand example_imports " " = Panic index_out_of_range.
Proof.
  split; [done|]. split; [reflexivity|]. split; [by constructor|].
  reflexivity.
Qed.

(** ** Blocking runs *)

Lemma set_terminal_same s : set_terminal (terminal s) s = s.
Proof. by destruct s. Qed.

Section BlockingFacts.
Context `{Imports} `{Host}.

(** Streams connected to the terminal files: every write of the child goes
    to the terminal, in order, and the recorder is left as it was. *)
Lemma deliver_passthrough cmd out :
  Stdout_of cmd = File Stdout →
  Stderr_of cmd = File Stderr →
  ∀ rec s,
    deliver cmd out rec s = (rec, set_terminal (terminal s ++ out) s).
Proof.
  intros Hout Herr. induction out as [|[f bytes] out IH]; intros rec s.
  - simpl. by rewrite app_nil_r, set_terminal_same.
  - simpl. rewrite Hout, Herr.
    assert (write (match f with Stdout => File Stdout | Stderr => File Stderr end)
              bytes rec s
            = (rec, set_terminal (terminal s ++ [(f, bytes)]) s)) as ->
      by by destruct f.
    rewrite IH. simpl. by rewrite <- app_assoc.
Qed.

(** Whatever the wiring, a blocking run changes the terminal only. *)
Lemma deliver_terminal_only cmd out :
  ∀ rec s, ∃ t, (deliver cmd out rec s).2 = set_terminal t s.
Proof.
  induction out as [|[f bytes] out IH]; intros rec s.
  - exists (terminal s). simpl. by rewrite set_terminal_same.
  - simpl.
    destruct (write _ bytes rec s) as [rec' s'] eqn:Hw.
    assert (∃ t, s' = set_terminal t s) as [t ->].
    { unfold write in Hw.
      destruct (match f with Stdout => _ | Stderr => _ end) as [g|g color].
      - inversion Hw. eauto.
      - destruct (tee color bytes). inversion Hw. eauto. }
    destruct (IH rec' (set_terminal t s)) as [t' Ht'].
    exists t'. by rewrite Ht'.
Qed.

Lemma command_run_terminal_only gcmd s :
  ∃ out err t, command_run gcmd s = (Ret (out, err), set_terminal t s).
Proof.
  unfold command_run, toCmd, Cmd_Run. unfold_go.
  destruct (child _ s) as [out err].
  match goal with |- context [deliver ?c out ?r s] =>
    destruct (deliver_terminal_only c out r s) as [t Ht];
    destruct (deliver c out r s) as [rec' s'] end.
  simpl in Ht. subst s'.
  destruct (captureOutput gcmd); eauto.
Qed.

End BlockingFacts.

(** C8.  With [captureOutput] false, [gcmd.run()] returns the empty string as
    the captured output whatever the child writes to its two streams; all of
    these writes go to the terminal, and the error is that of the child. *)
Theorem command_run_without_capture `{Imports} `{Host}
    (gcmd : command) (s : state) (out : list (stream * string))
    (err : option error) :
  captureOutput gcmd = false →
  child (toCmd gcmd).1 s = (out, err) →
  command_run gcmd s = (Ret ("", err), set_terminal (terminal s ++ out) s).
Proof.
  intros Hcapture Hchild.
  unfold command_run, Cmd_Run. unfold_go.
  destruct (toCmd gcmd) as [cmd e] eqn:Hcmd.
  assert (e = None) as -> by (unfold toCmd in Hcmd; by inversion Hcmd).
  simpl in Hchild. rewrite Hchild.
  rewrite deliver_passthrough.
  - by rewrite Hcapture.
  - unfold toCmd in Hcmd. inversion Hcmd. simpl. by rewrite Hcapture.
  - unfold toCmd in Hcmd. inversion Hcmd. simpl. by rewrite Hcapture.
Qed.

Lemma command_run_without_capture_witness :
  let gcmd := {| executable := "echo"; argv := ["hi"]; env := [];
                 wd := "/srv"; captureOutput := false; recorder := "" |} in
  @command_run example_imports example_host gcmd (fresh "/srv" ["/srv"])
  = (Ret ("", None),
     set_terminal [(Stdout, "out"); (Stderr, "err")] (fresh "/srv" ["/srv"])).
Proof.
  intros gcmd.
  apply (@command_run_without_capture example_imports example_host gcmd
           (fresh "/srv" ["/srv"]) [(Stdout, "out"); (Stderr, "err")] None).
  - reflexivity.
  - reflexivity.
Defined.

(** ** Facts about the functions of [cmd.go] *)

Section EngineFacts.
Context `{Imports} `{Host}.

Lemma getWd_reads wd s : (getWd wd s).2 = s.
Proof.
  unfold getWd, os_Getwd. unfold_go.
  destruct wd as [|d [|]]; try by case_decide.
  by destruct d.
Qed.

Lemma run_terminal_only capture commandstr wd s :
  ∃ r t, run capture commandstr wd s = (r, set_terminal t s).
Proof.
  unfold run. unfold_go.
  pose proof (getWd_reads wd s) as Hwd.
  destruct (getWd wd s) as [[[dir [e|]]|msg] s0]; simpl in Hwd; subst s0.
  - exists (Ret ("", Some e)), (terminal s). by rewrite set_terminal_same.
  - destruct (splitCommand commandstr) as [[[executable argv] env]|msg].
    + match goal with |- context [command_run ?c s] =>
        destruct (command_run_terminal_only c s) as (out & err & t & ->) end.
      eauto.
    + exists (Panic msg), (terminal s). by rewrite set_terminal_same.
  - exists (Panic msg), (terminal s). by rewrite set_terminal_same.
Qed.

Lemma Run_terminal_only commandstr wd s :
  ∃ r t, Run commandstr wd s = (r, set_terminal t s).
Proof.
  unfold Run. unfold_go.
  destruct (run_terminal_only false commandstr wd s) as (r & t & ->).
  destruct r as [[out err]|msg]; eauto.
Qed.

(** [killSpawned] never panics and has no result to report an error in. *)
Lemma killSpawned_returns id s : (killSpawned id s).1 = Ret tt.
Proof.
  unfold killSpawned, lookup_spawned, Process_Kill, util_Error. unfold_go.
  destruct (spawnedProcesses s !! id) as [p|]; [|done].
  by destruct (processes s !! p) as [[| |]|].
Qed.

Lemma killSpawned_untracked id s :
  spawnedProcesses s !! id = None → killSpawned id s = (Ret tt, s).
Proof.
  intros Hid. unfold killSpawned, lookup_spawned. unfold_go. by rewrite Hid.
Qed.

Lemma killSpawned_running id p s :
  spawnedProcesses s !! id = Some p →
  processes s !! p = Some Running →
  killSpawned id s
  = (Ret tt, set_processes (<[p := Killed]> (processes s)) s).
Proof.
  intros Hid Hp. unfold killSpawned, lookup_spawned, Process_Kill.
  unfold_go. by rewrite Hid, Hp.
Qed.

(** When [Kill] reports an error, the error goes to the log and no further;
    [s1] is the state [Kill] leaves. *)
Lemma killSpawned_kill_error id p e s s1 :
  spawnedProcesses s !! id = Some p →
  Process_Kill p s = (Ret (Some e), s1) →
  killSpawned id s
  = util_Error "Start" "Could not kill existing process %+v\n" p s1.
Proof.
  intros Hid Hkill. unfold killSpawned, lookup_spawned. unfold_go.
  by rewrite Hid, Hkill.
Qed.

(** [killSpawned] touches the process table and the log only. *)
Lemma killSpawned_frame id s :
  ∃ ps l, killSpawned id s = (Ret tt, set_error_log l (set_processes ps s)).
Proof.
  unfold killSpawned, lookup_spawned, Process_Kill, util_Error. unfold_go.
  destruct (spawnedProcesses s !! id) as [p|].
  - destruct (processes s !! p) as [[| |]|]; simpl.
    + exists (<[p := Killed]> (processes s)), (error_log s). by destruct s.
    + eexists (processes s), _. by destruct s.
    + eexists (processes s), _. by destruct s.
    + eexists (processes s), _. by destruct s.
  - exists (processes s), (error_log s). by destruct s.
Qed.

(** [runAsync] after its call of [killSpawned]: the flag, the counter, the
    new unit, and [nil]. *)
Lemma runAsync_after_kill gcmd s :
  (0 ≤ waitgroup s)%Z →
  runAsync gcmd s
  = let s1 := (killSpawned (hash gcmd) s).2 in
    (Ret None,
     set_goroutines (goroutines s1 ++ [unit_of gcmd])
       (set_waitgroup (waitgroup s + 1) (set_waitExit true s1))).
Proof.
  intros Hwg. unfold runAsync, unit_of, toCmd. unfold_go.
  destruct (killSpawned_frame (hash gcmd) s) as (ps & l & ->).
  unfold set_waitExit_true, waitgroup_Add, go. simpl.
  rewrite bool_decide_eq_false_2 by lia. done.
Qed.

(** What a call of [Start] that returns did: it either launched nothing and
    changed the terminal at most, or it went through [runAsync]. *)
Lemma Start_cases commandstr wd s r s' :
  Start commandstr wd s = (Ret r, s') →
  (∃ t, s' = set_terminal t s) ∨
  (∃ gcmd t, runAsync gcmd (set_terminal t s) = (Ret r, s')).
Proof.
  unfold Start. unfold_go.
  pose proof (getWd_reads wd s) as Hwd.
  destruct (getWd wd s) as [[[dir [e|]]|msg] s0]; simpl in Hwd; subst s0.
  - intros [= <- <-]. left. exists (terminal s). by rewrite set_terminal_same.
  - destruct (splitCommand commandstr) as [[[executable argv] env]|msg];
      [|done].
    destruct (strings.HasSuffix executable ".go").
    + destruct (Run_terminal_only "go install" wd s) as (rb & t & ->).
      destruct rb as [[e|]|msg]; [| |done].
      * intros [= <- <-]. left. eauto.
      * intros Hrun. right. eauto.
    + intros Hrun. right. eexists _, (terminal s).
      rewrite set_terminal_same. done.
  - done.
Qed.

End EngineFacts.

(** ** Empty command lines *)

Lemma range_returns_item argv items :
  ∀ i env executable argv' env',
    splitCommand_range argv i items env = Returned executable argv' env' →
    executable ∈ items.
Proof.
  induction items as [|a l IH]; intros i env executable argv' env'; [done|].
  simpl. destruct (strings.Contains a "=").
  - destruct env; intros Hr; apply IH in Hr; set_solver.
  - intros [= <- _ _]. set_solver.
Qed.

Lemma splitCommand_words_total argv :
  argv ≠ [] →
  ∃ executable argv' env,
    splitCommand_words argv = Ret (executable, argv', env)
    ∧ executable ∈ argv.
Proof.
  intros Hne. unfold splitCommand_words.
  destruct (splitCommand_range argv 0 argv []) as [e a v|v] eqn:Hrange.
  - apply range_returns_item in Hrange. eauto.
  - destruct argv as [|w ws]; [done|]. eexists _, _, _. split; [done|].
    set_solver.
Qed.

(** C9.  On a command line that tokenizes to no word, [splitCommand] reads
    [argv[0]] of an empty slice and panics; [Run], [RunOutput] and [Start],
    which call it once the working directory is resolved, panic in the same
    way.  On every command line with at least one word [splitCommand]
    returns, and its executable is one of the words. *)
Theorem splitCommand_no_words_panics `{Imports} `{Host} (command : string) :
  ToArgv command = [] →
  splitCommand command = Panic index_out_of_range
  ∧ (∀ wd s dir,
       getWd wd s = (Ret (dir, None), s) →
       Run command wd s = (Panic index_out_of_range, s)
       ∧ RunOutput command wd s = (Panic index_out_of_range, s)
       ∧ Start command wd s = (Panic index_out_of_range, s))
  ∧ (∀ other,
       ToArgv other ≠ [] →
       ∃ executable argv env,
         splitCommand other = Ret (executable, argv, env)
         ∧ executable ∈ ToArgv other).
Proof.
  intros Hwords.
  assert (splitCommand command = Panic index_out_of_range) as Hsplit.
  { unfold splitCommand. by rewrite Hwords. }
  split; [done|]. split.
  - intros wd s dir Hwd.
    unfold Run, RunOutput, run, Start. unfold_go.
    by rewrite Hwd, Hsplit.
  - intros other Hother. unfold splitCommand.
    by apply splitCommand_words_total.
Qed.

Lemma splitCommand_no_words_panics_witness :
  @ToArgv example_imports "" = []
  ∧ @splitCommand example_imports "" = Panic index_out_of_range
  ∧ @Start example_imports example_host "" [] (fresh "/srv" ["/srv"])
    = (Panic index_out_of_range, fresh "/srv" ["/srv"]).
Proof.
  pose proof (@splitCommand_no_words_panics example_imports example_host ""
                eq_refl) as (Hsplit & Hcallers & _).
  split; [reflexivity|]. split; [exact Hsplit|].
  apply (Hcallers [] (fresh "/srv" ["/srv"]) "/srv"). reflexivity.
Defined.

(** ** Starting a Go source file *)

(** C4.  When the executable parsed by [Start] ends in [".go"], the blocking
    [Run("go install", wd...)] is performed first, and it runs the build in
    the directory [Start] resolved.  If the build reports an error, [Start]
    returns that error, and no unit is scheduled, no process created and no
    handle stored.  If it succeeds, [Start] goes on with [runAsync] on a
    command whose executable is [path.Base] of the resolved directory. *)
Theorem Start_go_file_builds_first `{Imports} `{Host}
    (commandstr : string) (wd : list In) (s : state) (dir : string)
    (executable : string) (argv env : list string)
    (build : option error) (s1 : state) :
  getWd wd s = (Ret (dir, None), s) →
  splitCommand commandstr = Ret (executable, argv, env) →
  strings.HasSuffix executable ".go" = true →
  Run "go install" wd s = (Ret build, s1) →
  (∀ bexe bargv benv,
     splitCommand "go install" = Ret (bexe, bargv, benv) →
     ∃ out,
       command_run
         {| executable := bexe; argv := bargv; env := benv; wd := dir;
            captureOutput := false; recorder := "" |} s
       = (Ret (out, build), s1))
  ∧ match build with
    | Some e =>
        Start commandstr wd s = (Ret (Some e), s1)
        ∧ goroutines s1 = goroutines s
        ∧ processes s1 = processes s
        ∧ spawnedProcesses s1 = spawnedProcesses s
        ∧ waitgroup s1 = waitgroup s
    | None =>
        Start commandstr wd s
        = runAsync (async_command (path.Base dir) dir argv env) s1
    end.
Proof.
  intros Hwd Hsplit Hgo Hbuild. split.
  - intros bexe bargv benv Hb.
    unfold Run, run in Hbuild. unfold_go. rewrite Hwd, Hb in Hbuild.
    match type of Hbuild with context [command_run ?c s] =>
      destruct (command_run c s) as [[[out err]|msg] s2] end; [|done].
    inversion Hbuild; subst. eauto.
  - assert (Start commandstr wd s
            = match build with
              | Some e => (Ret (Some e), s1)
              | None =>
                  runAsync (async_command (path.Base dir) dir argv env) s1
              end) as HStart.
    { unfold Start. unfold_go. rewrite Hwd, Hsplit, Hgo, Hbuild.
      by destruct build. }
    destruct build as [e|]; [|done].
    split; [done|].
    destruct (Run_terminal_only "go install" wd s) as (r & t & Ht).
    rewrite Ht in Hbuild. by inversion Hbuild.
Qed.

Lemma Start_go_file_builds_first_witness :
  (@Start example_imports example_host "main.go -v" [["/broken"]]
     (fresh "/srv" ["/srv"])).1 = Ret (Some "exit status 1")
  ∧ @Start example_imports example_host "main.go -v" [["/srv/app"]]
      (fresh "/srv" ["/srv"])
    = @runAsync example_imports
        (async_command "app" "/srv/app" ["-v"] [])
        (set_terminal
           [(Stdout, "out"); (Stderr, "err")] (fresh "/srv" ["/srv"])).
Proof.
  split.
  - pose proof (@Start_go_file_builds_first example_imports example_host
                  "main.go -v" [["/broken"]] (fresh "/srv" ["/srv"])
                  "/broken" "main.go" ["-v"] [] (Some "exit status 1")
                  (set_terminal [(Stdout, "out"); (Stderr, "err")]
                     (fresh "/srv" ["/srv"]))
                  eq_refl eq_refl eq_refl eq_refl) as [_ [HStart _]].
    by rewrite HStart.
  - pose proof (@Start_go_file_builds_first example_imports example_host
                  "main.go -v" [["/srv/app"]] (fresh "/srv" ["/srv"])
                  "/srv/app" "main.go" ["-v"] [] None
                  (set_terminal [(Stdout, "out"); (Stderr, "err")]
                     (fresh "/srv" ["/srv"]))
                  eq_refl eq_refl eq_refl eq_refl) as [_ HStart].
    exact HStart.
Defined.

(** ** Killing the tracked process *)

Section KillFacts.
Context `{Imports}.

(** [runAsync] on a command whose key holds the handle of a running process:
    that process is signalled, and nothing else happens to the table. *)
Lemma runAsync_kills_tracked gcmd s p :
  (0 ≤ waitgroup s)%Z →
  spawnedProcesses s !! hash gcmd = Some p →
  processes s !! p = Some Running →
  runAsync gcmd s
  = (Ret None,
     set_goroutines (goroutines s ++ [unit_of gcmd])
       (set_waitgroup (waitgroup s + 1)
          (set_waitExit true
             (set_processes (<[p := Killed]> (processes s)) s)))).
Proof.
  intros Hwg Hid Hp. rewrite runAsync_after_kill by done.
  by rewrite (killSpawned_running _ p).
Qed.

(** Whatever [killSpawned] does, [runAsync] schedules its unit and returns
    [nil]. *)
Lemma runAsync_schedules gcmd s :
  (0 ≤ waitgroup s)%Z →
  ∃ s',
    runAsync gcmd s = (Ret None, s')
    ∧ goroutines s' = goroutines s ++ [unit_of gcmd]
    ∧ waitgroup s' = (waitgroup s + 1)%Z
    ∧ waitExit s' = true
    ∧ spawnedProcesses s' = spawnedProcesses s.
Proof.
  intros Hwg. rewrite runAsync_after_kill by done.
  destruct (killSpawned_frame (hash gcmd) s) as (ps & l & ->).
  eexists. split; [done|]. done.
Qed.

End KillFacts.

(** C7.  [killSpawned] does nothing when no handle is stored under the key.
    When [Kill] on the stored handle fails, the failure is written to the
    log and goes no further: [killSpawned] returns normally (it has no error
    result and does not panic), so the [runAsync] that called it still
    schedules the new unit and returns [nil]. *)
Theorem killSpawned_swallows_errors `{Imports} (id : string) (s : state) :
  (killSpawned id s).1 = Ret tt
  ∧ (spawnedProcesses s !! id = None → killSpawned id s = (Ret tt, s))
  ∧ (∀ p e s1,
       spawnedProcesses s !! id = Some p →
       Process_Kill p s = (Ret (Some e), s1) →
       killSpawned id s
       = (Ret tt, set_error_log (error_log s1 ++ [kill_failure p]) s1))
  ∧ (∀ gcmd,
       hash gcmd = id →
       (0 ≤ waitgroup s)%Z →
       ∃ s',
         runAsync gcmd s = (Ret None, s')
         ∧ goroutines s' = goroutines s ++ [unit_of gcmd]).
Proof.
  split; [apply killSpawned_returns|].
  split; [apply killSpawned_untracked|].
  split.
  - intros p e s1 Hid Hkill.
    by rewrite (killSpawned_kill_error id p e s s1).
  - intros gcmd _ Hwg.
    destruct (runAsync_schedules gcmd s Hwg) as (s' & ? & ? & _). eauto.
Qed.

Lemma killSpawned_swallows_errors_witness :
  killSpawned "server" stale_state
  = (Ret tt, set_error_log [kill_failure 0] stale_state)
  ∧ killSpawned "other" stale_state = (Ret tt, stale_state).
Proof.
  pose proof (@killSpawned_swallows_errors example_imports "server"
                stale_state) as (_ & _ & Hfail & _).
  pose proof (@killSpawned_swallows_errors example_imports "other"
                stale_state) as (_ & Hnone & _).
  split.
  - apply (Hfail 0 "os: process already finished" stale_state);
      reflexivity.
  - apply Hnone. reflexivity.
Defined.

(** ** The key of a command *)

(** C10.  [hash] is not injective: it joins the executable and the
    comma-joined arguments with nothing in between, so executable ["ab"]
    without arguments and executable ["a"] with argument ["b"] have the same
    key ["ab"].  Hence [runAsync] on the second command signals the running
    process that is stored for the first. *)
Theorem hash_collision `{Imports} :
  hash cmd_ab = "ab"
  ∧ hash cmd_a_b = "ab"
  ∧ executable cmd_ab ≠ executable cmd_a_b
  ∧ argv cmd_ab ≠ argv cmd_a_b
  ∧ ¬ (∀ c1 c2 : command,
         hash c1 = hash c2 →
         executable c1 = executable c2 ∧ argv c1 = argv c2)
  ∧ (∀ s p,
       (0 ≤ waitgroup s)%Z →
       spawnedProcesses s !! hash cmd_ab = Some p →
       processes s !! p = Some Running →
       processes (runAsync cmd_a_b s).2 !! p = Some Killed).
Proof.
  split; [done|]. split; [done|]. split; [done|]. split; [done|]. split.
  - intros Hinj. by destruct (Hinj cmd_ab cmd_a_b eq_refl).
  - intros s p Hwg Hid Hp.
    rewrite (runAsync_kills_tracked cmd_a_b s p) by done.
    simpl. apply list_lookup_insert_eq. by eapply lookup_lt_Some.
Qed.

Lemma hash_collision_witness :
  let s := set_spawnedProcesses {["ab" := 0]}
             (set_processes [Running] (fresh "/srv" ["/srv"])) in
  processes (@runAsync example_imports cmd_a_b s).2 !! 0 = Some Killed.
Proof.
  intros s.
  pose proof (@hash_collision example_imports) as (_ & _ & _ & _ & _ & Hkill).
  apply Hkill; [done | reflexivity | reflexivity].
Defined.

(** ** Scoped change of directory *)

Lemma os_Chdir_enters dir s :
  resolve (cwd s) dir ∈ dirs s →
  os_Chdir dir s = (Ret None, set_cwd (resolve (cwd s) dir) s).
Proof. intros Hin. unfold os_Chdir. by rewrite decide_True. Qed.

Lemma os_Chdir_refuses dir s :
  resolve (cwd s) dir ∉ dirs s →
  ∃ e, os_Chdir dir s = (Ret (Some e), s).
Proof. intros Hin. unfold os_Chdir. rewrite decide_False by done. eauto. Qed.

Lemma resolve_abs from p : is_abs p = true → resolve from p = p.
Proof. intros Hp. unfold resolve. by rewrite Hp. Qed.

(** The callback as the deferred call sees it: run from the entered
    directory, then [os.Chdir(olddir)] on the state it leaves, whether it
    returned or panicked. *)
Lemma Inside_entered dir lambda s r s2 :
  cwd s ∈ dirs s →
  resolve (cwd s) dir ∈ dirs s →
  lambda (set_cwd (resolve (cwd s) dir) s) = (r, s2) →
  Inside dir lambda s
  = (match r with Ret _ => Ret None | Panic msg => Panic msg end,
     (os_Chdir (cwd s) s2).2).
Proof.
  intros Hold Hnew Hlambda. unfold Inside, os_Getwd, defer. unfold_go.
  rewrite decide_True by done. rewrite os_Chdir_enters by done.
  rewrite Hlambda.
  destruct r as [[]|msg]; unfold os_Chdir; by case_decide.
Qed.

(** C5, as the code has it.  [Inside] returns the error of [os.Getwd] or of
    [os.Chdir(dir)] without running the callback.  Otherwise the callback
    runs with the working directory set to the directory [dir] names, and
    when it returns or panics the deferred [os.Chdir(olddir)] runs and its
    error is dropped: the working directory is the original one again
    provided that directory can still be entered; if not, it stays where the
    callback left it. *)
Theorem Inside_restores_when_possible
    (dir : string) (lambda : M unit) (s : state) :
  (cwd s ∉ dirs s →
     ∃ e, os_Getwd s = (Ret ("", Some e), s)
          ∧ Inside dir lambda s = (Ret (Some e), s))
  ∧ (cwd s ∈ dirs s →
     resolve (cwd s) dir ∉ dirs s →
     ∃ e, os_Chdir dir s = (Ret (Some e), s)
          ∧ Inside dir lambda s = (Ret (Some e), s))
  ∧ (cwd s ∈ dirs s →
     resolve (cwd s) dir ∈ dirs s →
     ∃ r s2 s3,
       lambda (set_cwd (resolve (cwd s) dir) s) = (r, s2)
       ∧ Inside dir lambda s
         = (match r with Ret _ => Ret None | Panic msg => Panic msg end, s3)
       ∧ (is_abs (cwd s) = true → cwd s ∈ dirs s2 →
          s3 = set_cwd (cwd s) s2 ∧ cwd s3 = cwd s)
       ∧ (resolve (cwd s2) (cwd s) ∉ dirs s2 → s3 = s2)).
Proof.
  split; [|split].
  - intros Hgone. eexists. unfold Inside, os_Getwd. unfold_go.
    rewrite decide_False by done. done.
  - intros Hold Hnew. destruct (os_Chdir_refuses dir s Hnew) as [e He].
    exists e. split; [done|].
    unfold Inside, os_Getwd. unfold_go.
    rewrite decide_True by done. by rewrite He.
  - intros Hold Hnew.
    destruct (lambda (set_cwd (resolve (cwd s) dir) s)) as [r s2] eqn:Hl.
    exists r, s2, (os_Chdir (cwd s) s2).2.
    split; [done|]. split; [by apply Inside_entered|]. split.
    + intros Habs Hstill.
      rewrite os_Chdir_enters; rewrite resolve_abs by done; done.
    + intros Hgone. by destruct (os_Chdir_refuses (cwd s) s2 Hgone) as [e ->].
Qed.

Lemma Inside_restores_when_possible_witness :
  Inside "/tmp" (panic "boom") two_dirs = (Panic "boom", two_dirs)
  ∧ (∃ e, Inside "/nowhere" (remove_dir "/srv") two_dirs
          = (Ret (Some e), two_dirs)).
Proof.
  pose proof (Inside_restores_when_possible "/tmp" (panic "boom") two_dirs)
    as (_ & _ & Hrun).
  pose proof (Inside_restores_when_possible "/nowhere" (remove_dir "/srv")
                two_dirs) as (_ & Hfail & _).
  split.
  - destruct Hrun as (r & s2 & s3 & Hl & HInside & Hback & _).
    + apply (bool_decide_unpack _). by vm_compute.
    + apply (bool_decide_unpack _). by vm_compute.
    + rewrite HInside. inversion Hl; subst r s2.
      destruct Hback as [-> _].
      * reflexivity.
      * apply (bool_decide_unpack _). by vm_compute.
      * reflexivity.
  - destruct Hfail as (e & _ & HInside).
    + apply (bool_decide_unpack _). by vm_compute.
    + apply (bool_decide_unpack _). by vm_compute.
    + eauto.
Defined.

(** The claim C5 as stated fails when the callback removes the original
    directory: the switch succeeds, the callback returns, and [Inside]
    returns [nil] with the working directory still ["/tmp"]. *)
Lemma Inside_cannot_always_restore :
  Inside "/tmp" (remove_dir "/srv") two_dirs
  = (Ret None, set_dirs ["/tmp"] (set_cwd "/tmp" two_dirs))
  ∧ cwd (Inside "/tmp" (remove_dir "/srv") two_dirs).2 ≠ cwd two_dirs.
Proof. split; [reflexivity | by vm_compute]. Qed.

(** ** Schedules: what one event changes *)

Lemma count_of_app f gs1 gs2 :
  count_of f (gs1 ++ gs2) = count_of f gs1 + count_of f gs2.
Proof. unfold count_of. by rewrite List.filter_app, length_app. Qed.

Lemma count_of_alter_same f h gs :
  ∀ g,
    (∀ gr, gs !! g = Some gr → f (h gr) = f gr) →
    count_of f (alter h g gs) = count_of f gs.
Proof.
  unfold count_of.
  induction gs as [|a l IH]; intros g Hsame; [done|].
  destruct g as [|g]; simpl.
  - rewrite (Hsame a eq_refl). by destruct (f a).
  - specialize (IH g (λ gr Hgr, Hsame gr Hgr)). unfold alter in IH.
    destruct (f a); simpl; by rewrite IH.
Qed.

Lemma count_of_alter_drop f h gs :
  ∀ g gr,
    gs !! g = Some gr → f gr = true → f (h gr) = false →
    S (count_of f (alter h g gs)) = count_of f gs.
Proof.
  unfold count_of.
  induction gs as [|a l IH]; intros g gr Hgr Hbefore Hafter; [done|].
  destruct g as [|g]; simpl in *.
  - inversion Hgr; subst a. by rewrite Hbefore, Hafter.
  - specialize (IH g gr Hgr Hbefore Hafter). unfold alter in IH.
    destruct (f a); simpl; by rewrite <- IH.
Qed.

Lemma count_of_positive f gs g gr :
  gs !! g = Some gr → f gr = true → 0 < count_of f gs.
Proof.
  unfold count_of. revert g.
  induction gs as [|a l IH]; intros g Hgr Hf; [done|].
  destruct g as [|g]; simpl in *.
  - inversion Hgr; subst a. rewrite Hf. simpl. lia.
  - destruct (f a); simpl; [lia|]. by eapply IH.
Qed.

Lemma stage_of_set_stage g st s gr :
  goroutines s !! g = Some gr →
  stage_of g (set_stage g st s) = Some st.
Proof.
  intros Hg. unfold stage_of, set_stage. simpl.
  by rewrite list_lookup_alter_eq, Hg.
Qed.


Section ScheduleFacts.
Context `{Imports} `{Host}.

Lemma killSpawned_processes id s :
  processes (killSpawned id s).2
  = kill_table (spawnedProcesses s) id (processes s).
Proof.
  unfold killSpawned, lookup_spawned, Process_Kill, util_Error, kill_table.
  unfold_go.
  destruct (spawnedProcesses s !! id) as [p|]; [|done].
  by destruct (processes s !! p) as [[| |]|].
Qed.

(** A call of [Start] that returns either leaves units, counter, flag,
    registry and process table alone, or it went through [runAsync]: the
    stored process of the key is signalled, the flag is set, the counter
    goes up by one and one unit is scheduled. *)
Lemma Start_effect commandstr wd s r s' :
  (0 ≤ waitgroup s)%Z →
  Start commandstr wd s = (Ret r, s') →
  (goroutines s' = goroutines s
   ∧ waitgroup s' = waitgroup s
   ∧ waitExit s' = waitExit s
   ∧ spawnedProcesses s' = spawnedProcesses s
   ∧ processes s' = processes s)
  ∨ (∃ gcmd,
       r = None
       ∧ goroutines s' = goroutines s ++ [unit_of gcmd]
       ∧ waitgroup s' = (waitgroup s + 1)%Z
       ∧ waitExit s' = true
       ∧ spawnedProcesses s' = spawnedProcesses s
       ∧ processes s'
         = kill_table (spawnedProcesses s) (hash gcmd) (processes s)).
Proof.
  intros Hwg HStart.
  destruct (Start_cases _ _ _ _ _ HStart) as [[t ->]|(gcmd & t & Hrun)].
  - by left.
  - right. exists gcmd.
    rewrite runAsync_after_kill in Hrun by done.
    pose proof (killSpawned_processes (hash gcmd) (set_terminal t s)) as Hps.
    destruct (killSpawned_frame (hash gcmd) (set_terminal t s))
      as (ps & l & Hkill).
    rewrite Hkill in Hrun, Hps. simpl in Hrun, Hps.
    inversion Hrun; subst. done.
Qed.

Lemma step_barrier_inv ev s s' :
  barrier_inv s → step ev s = Some s' → barrier_inv s'.
Proof.
  intros [Hwg Hflag] Hstep. unfold barrier_inv.
  destruct ev as [commandstr wd|g r|g|g|p]; simpl in Hstep.
  - destruct (Start commandstr wd s) as [[r|msg] s1] eqn:HStart; [|done].
    inversion Hstep; subst s1.
    apply Start_effect in HStart; [|lia].
    destruct HStart as [(Hg & Hw & Hf & _)|(gcmd & _ & Hg & Hw & Hf & _)].
    + by rewrite Hg, Hw, Hf.
    + rewrite Hg, Hw, Hf, count_of_app, Hwg. split; [|by right].
      change (count_of owes_Done [unit_of gcmd]) with 1. lia.
  - unfold stage_of in Hstep.
    destruct (goroutines s !! g) as [gr|] eqn:Hg; [|done]. simpl in Hstep.
    destruct (g_stage gr) eqn:Hst; try done.
    destruct r as [e|]; inversion Hstep; subst s'; simpl.
    + rewrite count_of_alter_same.
      * split; [done|]. destruct Hflag as [Hnil|?]; [|by right].
        by rewrite Hnil in Hg.
      * intros gr' Hgr'. rewrite Hg in Hgr'. inversion Hgr'; subst gr'.
        unfold owes_Done. simpl. by rewrite Hst.
    + rewrite count_of_alter_same.
      * split; [done|]. destruct Hflag as [Hnil|?]; [|by right].
        by rewrite Hnil in Hg.
      * intros gr' Hgr'. rewrite Hg in Hgr'. inversion Hgr'; subst gr'.
        unfold owes_Done. simpl. by rewrite Hst.
  - destruct (goroutines s !! g) as [gr|] eqn:Hg; [|done].
    destruct (g_stage gr) eqn:Hst; try done.
    inversion Hstep; subst s'; simpl.
    rewrite count_of_alter_same.
    + split; [done|]. destruct Hflag as [Hnil|?]; [|by right].
      by rewrite Hnil in Hg.
    + intros gr' Hgr'. rewrite Hg in Hgr'. inversion Hgr'; subst gr'.
      unfold owes_Done. simpl. by rewrite Hst.
  - unfold stage_of in Hstep.
    destruct (goroutines s !! g) as [gr|] eqn:Hg; [|done]. simpl in Hstep.
    destruct (g_stage gr) eqn:Hst; try done.
    assert (0 < count_of owes_Done (goroutines s)) as Hpos.
    { eapply count_of_positive; [done|]. unfold owes_Done. by rewrite Hst. }
    assert (waitgroup_Add (-1) s
            = (Ret tt, set_waitgroup (waitgroup s - 1) s)) as Hdone.
    { unfold waitgroup_Add. rewrite bool_decide_eq_false_2 by lia. done. }
    rewrite Hdone in Hstep.
    assert (s' = set_stage g GDone (set_waitgroup (waitgroup s - 1) s))
      as -> by (by destruct (processes s !! p) as [[| |]|]; inversion Hstep).
    simpl. split.
    + pose proof (count_of_alter_drop owes_Done (with_stage GDone)
                    (goroutines s) g gr Hg) as Hdrop.
      unfold owes_Done at 1 2 in Hdrop. simpl in Hdrop. rewrite Hst in Hdrop.
      specialize (Hdrop eq_refl eq_refl). lia.
    + destruct Hflag as [Hnil|?]; [|by right]. by rewrite Hnil in Hg.
  - destruct (processes s !! p) as [[| |]|]; try done.
    by inversion Hstep; subst s'.
Qed.

Lemma exec_barrier_inv evs :
  ∀ s s', barrier_inv s → exec evs s = Some s' → barrier_inv s'.
Proof.
  induction evs as [|ev evs IH]; intros s s' Hinv Hexec; simpl in Hexec.
  - by inversion Hexec; subst.
  - destruct (step ev s) as [s1|] eqn:Hstep; [|done].
    eapply IH; [|done]. by eapply step_barrier_inv.
Qed.

Lemma fresh_barrier_inv dir ds : barrier_inv (fresh dir ds).
Proof. split; [done | by left]. Qed.

End ScheduleFacts.

(** ** A unit whose process does not start *)

Section FailedStart.
Context `{Imports} `{Host}.




End FailedStart.



(** ** Supersession *)

(** C2, at the schedule where the code fails it.  [Start] is called twice
    with the command line ["server"], the second time before the unit of
    the first call has stored its handle.  [killSpawned] finds no handle,
    no signal is sent and nothing is logged, and in the end two processes
    run for the one key ["server"]: the first process is not killed, against
    the comment of [Start] ("If Start is called with the same command it
    kills the previous process"). *)
Lemma racing_starts_leave_two_running :
  ∃ s,
    @exec example_imports example_host racing (fresh "/srv" ["/srv"]) = Some s
    ∧ processes s = [Running; Running]
    ∧ g_id <$> goroutines s = ["server"; "server"]
    ∧ g_stage <$> goroutines s = [GWaiting 0; GWaiting 1]
    ∧ error_log s = []
    ∧ ¬ at_most_one_live s.
Proof.
  destruct (@exec example_imports example_host racing (fresh "/srv" ["/srv"]))
    as [s|] eqn:Hs; vm_compute in Hs; [|done].
  exists s. split; [done|]. inversion Hs; subst s.
  repeat (split; [reflexivity|]).
  intros Hone.
  by specialize (Hone 0 1 _ _ eq_refl eq_refl eq_refl eq_refl eq_refl).
Qed.

Example hand_over_signals_first :
  ∃ s,
    @exec example_imports example_host hand_over (fresh "/srv" ["/srv"])
    = Some s
    ∧ @orderly example_imports example_host hand_over (fresh "/srv" ["/srv"])
      = true
    ∧ processes s = [Killed; Running]
    ∧ spawnedProcesses s !! "server" = Some 1.
Proof.
  destruct (@exec example_imports example_host hand_over
              (fresh "/srv" ["/srv"])) as [s|] eqn:Hs;
    vm_compute in Hs; [|done].
  exists s. split; [done|]. inversion Hs; subst s.
  split; [by vm_compute|]. split; [reflexivity | by vm_compute].
Qed.

(** *** Running processes and live units *)

Lemma running_app ps p :
  p < length ps → running (ps ++ [Running]) p = running ps p.
Proof. intros Hp. unfold running. by rewrite lookup_app_l. Qed.

(** A process that is marked killed or exited does not make any process
    running. *)
Lemma running_insert ps q st p :
  st ≠ Running →
  running (<[q := st]> ps) p = true →
  running ps p = true ∧ p ≠ q.
Proof.
  intros Hst. unfold running.
  destruct (decide (q = p)) as [->|Hne].
  - destruct (decide (p < length ps)) as [Hlt|Hge].
    + rewrite list_lookup_insert_eq by done. by destruct st.
    + rewrite list_insert_ge by lia.
      rewrite lookup_ge_None_2 by lia. done.
  - rewrite list_lookup_insert_ne by done. done.
Qed.

Lemma running_kill_table reg id ps p :
  running (kill_table reg id ps) p = true →
  running ps p = true ∧ reg !! id ≠ Some p.
Proof.
  unfold kill_table. destruct (reg !! id) as [q|] eqn:Hq; [|done].
  destruct (ps !! q) as [[| |]|] eqn:Hps.
  - intros Hrun. apply running_insert in Hrun as [? ?]; [|done].
    split; [done|congruence].
  - intros Hrun. split; [done|]. intros [= ->].
    unfold running in Hrun. by rewrite Hps in Hrun.
  - intros Hrun. split; [done|]. intros [= ->].
    unfold running in Hrun. by rewrite Hps in Hrun.
  - intros Hrun. split; [done|]. intros [= ->].
    unfold running in Hrun. by rewrite Hps in Hrun.
Qed.

Lemma length_kill_table reg id ps : length (kill_table reg id ps) = length ps.
Proof.
  unfold kill_table. destruct (reg !! id) as [q|]; [|done].
  destruct (ps !! q) as [[| |]|]; by rewrite ?length_insert.
Qed.

(** Liveness of a unit follows the process table. *)
Lemma live_mono ps ps' gr :
  (∀ p, running ps' p = true → running ps p = true) →
  live ps' gr = true → live ps gr = true.
Proof. unfold live. destruct (g_stage gr); auto. Qed.

Lemma live_app ps gr :
  (∀ p, g_stage gr = GStarted p ∨ g_stage gr = GWaiting p → p < length ps) →
  live (ps ++ [Running]) gr = live ps gr.
Proof.
  intros Hbound. unfold live.
  destruct (g_stage gr) as [|p|p| |]; try done; apply running_app; auto.
Qed.

Lemma lookup_with_stage st (g : nat) (gs : list goroutine) (g' : nat) gr' :
  alter (with_stage st) g gs !! g' = Some gr' →
  ∃ gr,
    gs !! g' = Some gr
    ∧ g_id gr' = g_id gr
    ∧ ((g' = g ∧ g_stage gr' = st) ∨ (g' ≠ g ∧ gr' = gr)).
Proof.
  destruct (decide (g = g')) as [->|Hne].
  - rewrite list_lookup_alter_eq.
    destruct (gs !! g') as [gr|]; [|done].
    intros [= <-]. exists gr. split; [done|]. split; [done|]. by left.
  - rewrite list_lookup_alter_ne by done. intros Hgr'.
    exists gr'. split; [done|]. split; [done|]. right. by split.
Qed.

Lemma settled_lookup s g gr :
  settled s = true → goroutines s !! g = Some gr → unsettled gr = false.
Proof.
  unfold settled. rewrite forallb_forall. intros Hall Hgr.
  apply negb_true_iff, Hall, list_elem_of_In, list_elem_of_lookup. eauto.
Qed.

Lemma unsettled_not_live_waiting gr :
  unsettled gr = false →
  ∀ ps, live ps gr = true → ∃ p, g_stage gr = GWaiting p ∧ running ps p = true.
Proof.
  unfold unsettled, live. destruct (g_stage gr); try done. eauto.
Qed.

Lemma fresh_sched_inv dir ds : sched_inv (fresh dir ds).
Proof. split; unfold at_most_one_live; simpl; intros; done. Qed.

(** *** The invariant of orderly schedules, event by event *)

Lemma inv_unchanged s s' :
  sched_inv s →
  goroutines s' = goroutines s →
  processes s' = processes s →
  spawnedProcesses s' = spawnedProcesses s →
  sched_inv s'.
Proof.
  intros [Hb Ho Hs Hl Ha] Hg Hp Hr.
  split; unfold at_most_one_live in *; rewrite ?Hg, ?Hp, ?Hr; done.
Qed.

(** Processes end or are killed: no unit becomes live. *)
Lemma inv_quieter s s' :
  sched_inv s →
  goroutines s' = goroutines s →
  spawnedProcesses s' = spawnedProcesses s →
  length (processes s') = length (processes s) →
  (∀ p, running (processes s') p = true → running (processes s) p = true) →
  sched_inv s'.
Proof.
  intros [Hb Ho Hs Hl Ha] Hg Hr Hlen Hmono.
  pose proof (λ gr, live_mono (processes s) (processes s') gr Hmono) as Hlive.
  split; unfold at_most_one_live in *; rewrite ?Hg, ?Hr, ?Hlen.
  - done.
  - intros g1 g2 gr1 gr2 H1 H2 Hid Hl1 Hl2. eapply Ho; eauto.
  - intros g gr p Hgr Hst Hrun. eapply Hs; eauto.
  - done.
  - intros g gr g' gr' Hgr Hu Hgr' Hne Hid.
    destruct (live (processes s') gr') eqn:Hl'; [|done].
    apply Hlive in Hl'. by rewrite (Ha g gr g' gr') in Hl'.
Qed.

(** A new unit is scheduled while all the others are settled and none with
    its key is live. *)
Lemma inv_spawn s s' unit :
  sched_inv s →
  settled s = true →
  g_stage unit = GSpawned →
  goroutines s' = goroutines s ++ [unit] →
  processes s' = processes s →
  spawnedProcesses s' = spawnedProcesses s →
  (∀ g gr, goroutines s !! g = Some gr → g_id gr = g_id unit →
           live (processes s) gr = false) →
  sched_inv s'.
Proof.
  intros [Hb Ho Hs Hl Ha] Hsettled Hst Hg Hp Hr Hquiet.
  assert (∀ g gr, (goroutines s ++ [unit]) !! g = Some gr →
            (goroutines s !! g = Some gr ∧ unsettled gr = false)
            ∨ (g = length (goroutines s) ∧ gr = unit)) as Hcases.
  { intros g gr Hgr. apply lookup_app_Some in Hgr as [Hgr|[Hge Hgr]].
    - left. split; [done|]. by eapply settled_lookup.
    - right. apply list_lookup_singleton_Some in Hgr as [Hz ->].
      split; [lia|done]. }
  assert (∀ ps, live ps unit = false) as Hunit
    by (intros ps; unfold live; by rewrite Hst).
  split; unfold at_most_one_live in *; rewrite ?Hg, ?Hp, ?Hr.
  - intros g gr p Hgr Hstage.
    apply Hcases in Hgr as [[Hgr _]|[_ ->]]; [by eapply Hb|].
    rewrite Hst in Hstage. by destruct Hstage.
  - intros g1 g2 gr1 gr2 H1 H2 Hid Hl1 Hl2.
    apply Hcases in H1 as [[H1 _]|[_ ->]]; [|by rewrite Hunit in Hl1].
    apply Hcases in H2 as [[H2 _]|[_ ->]]; [|by rewrite Hunit in Hl2].
    eapply Ho; eauto.
  - intros g gr p Hgr Hstage Hrun.
    apply Hcases in Hgr as [[Hgr _]|[_ ->]]; [by eapply Hs|].
    by rewrite Hst in Hstage.
  - intros g gr Hgr Hu. rewrite length_app. simpl.
    apply Hcases in Hgr as [[_ Hset]|[-> _]]; [congruence|lia].
  - intros g gr g' gr' Hgr Hu Hgr' Hne Hid.
    apply Hcases in Hgr as [[_ Hset]|[-> ->]]; [congruence|].
    apply Hcases in Hgr' as [[Hgr' _]|[-> _]]; [|done].
    by eapply Hquiet.
Qed.

(** A unit that is not live returns: after a failed [cmd.Start()], or after
    [waitgroup.Done()]. *)
Lemma inv_retire s s' g gr st :
  sched_inv s →
  goroutines s !! g = Some gr →
  st = GDone ∨ (∃ e, st = GFailed e) →
  goroutines s' = alter (with_stage st) g (goroutines s) →
  processes s' = processes s →
  spawnedProcesses s' = spawnedProcesses s →
  sched_inv s'.
Proof.
  intros [Hb Ho Hs Hl Ha] Hg Hst Hgs Hp Hr.
  assert (∀ g0 gr0, alter (with_stage st) g (goroutines s) !! g0 = Some gr0 →
            (goroutines s !! g0 = Some gr0 ∧ g0 ≠ g)
            ∨ (g0 = g ∧ g_stage gr0 = st)) as Hcases.
  { intros g0 gr0 Hgr0.
    apply lookup_with_stage in Hgr0 as (gr1 & H1 & _ & [[-> ?]|[? ->]]);
      [by right|by left]. }
  assert (∀ gr0 ps, g_stage gr0 = st → live ps gr0 = false) as Hdead.
  { intros gr0 ps Hgr0. unfold live. rewrite Hgr0.
    by destruct Hst as [->|[e ->]]. }
  assert (∀ gr0, g_stage gr0 = st → unsettled gr0 = false) as Hset.
  { intros gr0 Hgr0. unfold unsettled. rewrite Hgr0.
    by destruct Hst as [->|[e ->]]. }
  split; unfold at_most_one_live in *; rewrite ?Hgs, ?Hp, ?Hr.
  - intros g0 gr0 p Hgr0 Hstage.
    apply Hcases in Hgr0 as [[Hgr0 _]|[_ Hgr0]]; [by eapply Hb|].
    rewrite Hgr0 in Hstage.
    destruct Hst as [->|[e ->]]; by destruct Hstage.
  - intros g1 g2 gr1 gr2 H1 H2 Hid Hl1 Hl2.
    apply Hcases in H1 as [[H1 _]|[_ H1]];
      [|by rewrite (Hdead _ _ H1) in Hl1].
    apply Hcases in H2 as [[H2 _]|[_ H2]];
      [|by rewrite (Hdead _ _ H2) in Hl2].
    eapply Ho; eauto.
  - intros g0 gr0 p Hgr0 Hstage Hrun.
    apply Hcases in Hgr0 as [[Hgr0 _]|[_ Hgr0]]; [by eapply Hs|].
    rewrite Hgr0 in Hstage. by destruct Hst as [->|[e ->]].
  - intros g0 gr0 Hgr0 Hu. rewrite length_alter.
    apply Hcases in Hgr0 as [[Hgr0 _]|[_ Hgr0]]; [by eapply Hl|].
    by rewrite (Hset _ Hgr0) in Hu.
  - intros g0 gr0 g' gr' Hgr0 Hu Hgr' Hne Hid.
    apply Hcases in Hgr0 as [[Hgr0 _]|[_ Hgr0]];
      [|by rewrite (Hset _ Hgr0) in Hu].
    apply Hcases in Hgr' as [[Hgr' _]|[_ Hgr']]; [|by apply Hdead].
    exact (Ha g0 gr0 g' gr' Hgr0 Hu Hgr' Hne Hid).
Qed.

(** The scheduled unit starts its process. *)
Lemma inv_start_ok s s' g gr :
  sched_inv s →
  goroutines s !! g = Some gr →
  g_stage gr = GSpawned →
  goroutines s'
  = alter (with_stage (GStarted (length (processes s)))) g (goroutines s) →
  processes s' = processes s ++ [Running] →
  spawnedProcesses s' = spawnedProcesses s →
  sched_inv s'.
Proof.
  intros [Hb Ho Hs Hl Ha] Hg Hst Hgs Hp Hr.
  set (pnew := length (processes s)) in *.
  assert (unsettled gr = true) as Hgu by (unfold unsettled; by rewrite Hst).
  assert (∀ g0 gr0, alter (with_stage (GStarted pnew)) g (goroutines s) !! g0
                    = Some gr0 →
            (goroutines s !! g0 = Some gr0 ∧ g0 ≠ g
             ∧ live (processes s ++ [Running]) gr0 = live (processes s) gr0)
            ∨ (g0 = g ∧ g_stage gr0 = GStarted pnew ∧ g_id gr0 = g_id gr))
    as Hcases.
  { intros g0 gr0 Hgr0.
    apply lookup_with_stage in Hgr0 as (gr1 & H1 & Hid & [[-> ?]|[? ->]]).
    - right. rewrite Hg in H1. inversion H1; subst gr1. done.
    - left. split; [done|]. split; [done|]. apply live_app.
      intros p Hstage. by eapply Hb. }
  split; unfold at_most_one_live in *; rewrite ?Hgs, ?Hp, ?Hr.
  - intros g0 gr0 p Hgr0 Hstage. rewrite length_app. simpl.
    apply Hcases in Hgr0 as [(Hgr0 & _ & _)|(_ & Hgr0 & _)].
    + assert (p < length (processes s)) by (by eapply Hb). lia.
    + rewrite Hgr0 in Hstage.
      destruct Hstage as [[= <-]|?]; [|done]. unfold pnew. lia.
  - intros g1 g2 gr1 gr2 H1 H2 Hid Hl1 Hl2.
    apply Hcases in H1 as [(H1 & Hn1 & Hlive1)|(-> & H1 & Hid1)];
      apply Hcases in H2 as [(H2 & Hn2 & Hlive2)|(-> & H2 & Hid2)].
    + rewrite Hlive1 in Hl1. rewrite Hlive2 in Hl2. eapply Ho; eauto.
    + rewrite Hlive1 in Hl1.
      rewrite (Ha g gr g1 gr1) in Hl1; try done. congruence.
    + rewrite Hlive2 in Hl2.
      rewrite (Ha g gr g2 gr2) in Hl2; try done. congruence.
    + done.
  - intros g0 gr0 p Hgr0 Hstage Hrun.
    apply Hcases in Hgr0 as [(Hgr0 & _ & _)|(_ & Hgr0 & _)];
      [|by rewrite Hgr0 in Hstage].
    eapply Hs; eauto.
    rewrite running_app in Hrun; [done|].
    eapply Hb; eauto.
  - intros g0 gr0 Hgr0 Hu. rewrite length_alter.
    apply Hcases in Hgr0 as [(Hgr0 & _ & _)|(-> & _ & _)]; by eapply Hl.
  - intros g0 gr0 g' gr' Hgr0 Hu Hgr' Hne Hid.
    assert (g0 = g) as ->.
    { apply Hcases in Hgr0 as [(Hgr0 & _ & _)|(-> & _ & _)]; [|done].
      pose proof (Hl _ _ Hgr0 Hu). pose proof (Hl _ _ Hg Hgu). lia. }
    apply Hcases in Hgr0 as [(_ & ? & _)|(_ & _ & Hid0)]; [done|].
    apply Hcases in Hgr' as [(Hgr' & _ & Hlive')|(-> & _ & _)]; [|done].
    rewrite Hlive'. eapply (Ha g gr); eauto. congruence.
Qed.

(** The started unit stores its handle. *)
Lemma inv_store s s' g gr p :
  sched_inv s →
  goroutines s !! g = Some gr →
  g_stage gr = GStarted p →
  goroutines s' = alter (with_stage (GWaiting p)) g (goroutines s) →
  processes s' = processes s →
  spawnedProcesses s' = <[g_id gr := p]> (spawnedProcesses s) →
  sched_inv s'.
Proof.
  intros [Hb Ho Hs Hl Ha] Hg Hst Hgs Hp Hr.
  assert (unsettled gr = true) as Hgu by (unfold unsettled; by rewrite Hst).
  assert (∀ ps, live ps (with_stage (GWaiting p) gr) = live ps gr) as Hsame.
  { intros ps. unfold live. simpl. by rewrite Hst. }
  assert (∀ g0 gr0, alter (with_stage (GWaiting p)) g (goroutines s) !! g0
                    = Some gr0 →
            (goroutines s !! g0 = Some gr0 ∧ g0 ≠ g)
            ∨ (g0 = g ∧ gr0 = with_stage (GWaiting p) gr)) as Hcases.
  { intros g0 gr0 Hgr0. destruct (decide (g = g0)) as [<-|Hne].
    - rewrite list_lookup_alter_eq, Hg in Hgr0. inversion Hgr0. by right.
    - rewrite list_lookup_alter_ne in Hgr0 by done. left. by split. }
  split; unfold at_most_one_live in *; rewrite ?Hgs, ?Hp, ?Hr.
  - intros g0 gr0 q Hgr0 Hstage.
    apply Hcases in Hgr0 as [[Hgr0 _]|[_ ->]]; [by eapply Hb|].
    simpl in Hstage. destruct Hstage as [?|[= <-]]; [done|].
    eapply Hb; eauto.
  - intros g1 g2 gr1 gr2 H1 H2 Hid Hl1 Hl2.
    apply Hcases in H1 as [[H1 Hn1]|[-> ->]];
      apply Hcases in H2 as [[H2 Hn2]|[-> ->]].
    + eapply Ho; eauto.
    + rewrite Hsame in Hl2. eapply Ho; eauto.
    + rewrite Hsame in Hl1. eapply Ho; eauto.
    + done.
  - intros g0 gr0 q Hgr0 Hstage Hrun.
    apply Hcases in Hgr0 as [[Hgr0 Hne]|[_ ->]].
    + destruct (decide (g_id gr0 = g_id gr)) as [Hid|Hid].
      * assert (live (processes s) gr0 = false) as Hdead
          by (by eapply (Ha g gr)).
        unfold live in Hdead. rewrite Hstage in Hdead. congruence.
      * rewrite lookup_insert_ne by done. eapply Hs; eauto.
    + simpl in *. inversion Hstage; subst q. by rewrite lookup_insert_eq.
  - intros g0 gr0 Hgr0 Hu. rewrite length_alter.
    apply Hcases in Hgr0 as [[Hgr0 _]|[_ ->]]; [by eapply Hl|done].
  - intros g0 gr0 g' gr' Hgr0 Hu Hgr' Hne Hid.
    apply Hcases in Hgr0 as [[Hgr0 Hn0]|[_ ->]]; [|done].
    pose proof (Hl _ _ Hgr0 Hu). pose proof (Hl _ _ Hg Hgu). lia.
Qed.

Section OrderlyFacts.
Context `{Imports} `{Host}.

Lemma step_sched_inv ev s s' :
  barrier_inv s →
  sched_inv s →
  match ev with CallStart _ _ => settled s | _ => true end = true →
  step ev s = Some s' →
  sched_inv s'.
Proof.
  intros [Hwg _] Hinv Hsettled Hstep.
  destruct ev as [commandstr wd|g r|g|g|p]; simpl in Hstep.
  - destruct (Start commandstr wd s) as [[r|msg] s1] eqn:HStart; [|done].
    inversion Hstep; subst s1.
    apply Start_effect in HStart; [|lia].
    destruct HStart as [(Hg & _ & _ & Hr & Hp)
                       |(gcmd & _ & Hg & _ & _ & Hr & Hp)].
    + by eapply inv_unchanged.
    + set (sk := set_processes
                   (kill_table (spawnedProcesses s) (hash gcmd) (processes s))
                   s).
      assert (sched_inv sk) as Hk.
      { apply (inv_quieter s); try done.
        - apply length_kill_table.
        - intros p Hp'. by apply running_kill_table in Hp' as [? _]. }
      apply (inv_spawn sk s' (unit_of gcmd)); try done.
      intros g gr Hgr Hid. simpl in Hgr.
      destruct (live (processes sk) gr) eqn:Hlive; [|done].
      apply unsettled_not_live_waiting in Hlive as (p & Hst & Hrun);
        [|by eapply settled_lookup].
      apply running_kill_table in Hrun as [Hrun Hreg].
      destruct Hreg. change (hash gcmd) with (g_id (unit_of gcmd)).
      rewrite <- Hid.
      by eapply (inv_stored s Hinv).
  - unfold stage_of in Hstep.
    destruct (goroutines s !! g) as [gr|] eqn:Hg; [|done]. simpl in Hstep.
    destruct (g_stage gr) eqn:Hst; try done.
    destruct r as [e|]; inversion Hstep; subst s'.
    + eapply (inv_retire s _ g gr (GFailed e)); eauto.
    + by eapply (inv_start_ok s _ g gr).
  - destruct (goroutines s !! g) as [gr|] eqn:Hg; [|done].
    destruct (g_stage gr) eqn:Hst; try done.
    inversion Hstep; subst s'.
    by eapply (inv_store s _ g gr).
  - unfold stage_of in Hstep.
    destruct (goroutines s !! g) as [gr|] eqn:Hg; [|done]. simpl in Hstep.
    destruct (g_stage gr) eqn:Hst; try done.
    unfold waitgroup_Add in Hstep.
    assert (s' = set_stage g GDone (set_waitgroup (waitgroup s + -1) s))
      as ->
      by (destruct (processes s !! p) as [[| |]|]; try done;
          case_bool_decide; try done; by inversion Hstep).
    eapply (inv_retire s _ g gr GDone); eauto.
  - destruct (processes s !! p) as [[| |]|] eqn:Hp; try done.
    inversion Hstep; subst s'.
    apply (inv_quieter s); try done.
    + simpl. by rewrite length_insert.
    + intros q Hq. simpl in Hq. by apply running_insert in Hq as [? _].
Qed.

Lemma exec_sched_inv evs :
  ∀ s s',
    barrier_inv s →
    sched_inv s →
    orderly evs s = true →
    exec evs s = Some s' →
    barrier_inv s' ∧ sched_inv s'.
Proof.
  induction evs as [|ev evs IH]; intros s s' Hb Hinv Horderly Hexec;
    simpl in Hexec, Horderly.
  - by inversion Hexec; subst.
  - destruct (step ev s) as [s1|] eqn:Hstep; [|done].
    apply andb_true_iff in Horderly as [Hnow Hlater].
    eapply IH; [| |done|done].
    + by eapply step_barrier_inv.
    + by eapply step_sched_inv.
Qed.

End OrderlyFacts.

Lemma hash_same_identity (first second : command) :
  executable first = executable second →
  argv first = argv second →
  hash first = hash second.
Proof. intros Hexe Hargv. unfold hash. by rewrite Hexe, Hargv. Qed.

(** What the code does achieve, in this model of the operating system, where
    [Kill] succeeds on every running process.  Take a run from a fresh state
    in which the caller makes each call of [Start] only after the units of
    all the earlier calls have stored their handle or returned.  Then at any
    time at most one process is running for each key of the registry (the
    key, not the command line: for a Go source file the key comes from the
    directory).  Commands with the same executable and arguments have the
    same key; and when the registry holds a running process for the key of a
    command, [runAsync] on that command signals it before its own unit is
    scheduled. *)
Theorem orderly_starts_supersede `{Imports} `{Host}
    (dir : string) (ds : list string) (evs : list event) (s : state) :
  exec evs (fresh dir ds) = Some s →
  orderly evs (fresh dir ds) = true →
  at_most_one_live s
  ∧ (∀ first second,
       executable first = executable second →
       argv first = argv second →
       hash first = hash second)
  ∧ (∀ gcmd p,
       spawnedProcesses s !! hash gcmd = Some p →
       processes s !! p = Some Running →
       ∃ s',
         runAsync gcmd s = (Ret None, s')
         ∧ processes s' = <[p := Killed]> (processes s)
         ∧ goroutines s' = goroutines s ++ [unit_of gcmd]
         ∧ spawnedProcesses s' = spawnedProcesses s).
Proof.
  intros Hexec Horderly.
  destruct (exec_sched_inv evs _ _ (fresh_barrier_inv dir ds)
              (fresh_sched_inv dir ds) Horderly Hexec) as [[Hwg _] Hinv].
  split; [apply Hinv|]. split; [apply hash_same_identity|].
  intros gcmd p Hreg Hrun. eexists. split.
  - apply runAsync_kills_tracked; [lia|done|done].
  - done.
Qed.

Lemma orderly_starts_supersede_witness :
  ∃ s,
    @exec example_imports example_host first_stored (fresh "/srv" ["/srv"])
    = Some s
    ∧ at_most_one_live s
    ∧ processes
        (@runAsync example_imports (async_command "server" "/srv" [] []) s).2
      = [Killed].
Proof.
  destruct (@exec example_imports example_host first_stored
              (fresh "/srv" ["/srv"])) as [s|] eqn:Hs;
    [|by vm_compute in Hs].
  assert (@orderly example_imports example_host first_stored
            (fresh "/srv" ["/srv"]) = true) as Horderly
    by (vm_compute; reflexivity).
  pose proof (@orderly_starts_supersede example_imports example_host
                "/srv" ["/srv"] first_stored s Hs Horderly)
    as (Hone & _ & Hkill).
  exists s. split; [done|]. split; [done|].
  vm_compute in Hs. inversion Hs; subst s.
  destruct (Hkill (async_command "server" "/srv" [] []) 0)
    as (s' & -> & Hps & _); [by vm_compute | reflexivity |].
  exact Hps.
Defined.

(** ** More on the splitter *)

(** What the loop does on any words: it returns at the first plain word
    with the assignments before it, or it runs to the end over assignments
    only. *)
Lemma range_characterised items :
  ∀ argv i env,
    match splitCommand_range argv i items env with
    | Returned executable argv' env' =>
        ∃ assignments rest,
          items = assignments ++ executable :: rest
          ∧ Forall assignment assignments
          ∧ plain executable
          ∧ env' = env ++ assignments
          ∧ argv' = drop (i + length assignments + 1) argv
    | Exhausted env' => Forall assignment items ∧ env' = env ++ items
    end.
Proof.
  induction items as [|item items IH]; intros argv i env.
  - simpl. split; [done|]. by rewrite app_nil_r.
  - destruct (strings.Contains item "=") eqn:Hitem.
    + rewrite range_assignment by done.
      specialize (IH argv (S i) (env ++ [item])).
      destruct (splitCommand_range argv (S i) items (env ++ [item]))
        as [e a v|v].
      * destruct IH as (assignments & rest & -> & Hall & He & -> & ->).
        exists (item :: assignments), rest.
        split; [done|]. split; [by constructor|]. split; [done|].
        split; [by rewrite <- app_assoc|]. simpl. f_equal. lia.
      * destruct IH as [Hall ->]. split; [by constructor|].
        by rewrite <- app_assoc.
    + rewrite range_plain by done.
      exists [], items. split; [done|]. split; [done|]. split; [done|].
      split; [by rewrite app_nil_r|]. simpl. f_equal. lia.
Qed.

Lemma drop_past_middle {A} (l : list A) x r :
  drop (length l + 1) (l ++ x :: r) = r.
Proof. induction l as [|a l IH]; simpl; auto. Qed.

(** X1.  Whenever [splitCommand] returns, its three results account for
    every word of the command line, in order: either [env], the executable
    and [argv] put together give back the words, [env] holding assignments
    only and the executable being the first word without ["="]; or all the
    words are assignments, and then [env] is all the words while the
    executable and [argv] are all the words once more. *)
Theorem splitCommand_accounts_for_words `{Imports}
    (command executable : string) (argv env : list string) :
  splitCommand command = Ret (executable, argv, env) →
  (env ++ executable :: argv = ToArgv command
   ∧ Forall assignment env
   ∧ plain executable)
  ∨ (Forall assignment (ToArgv command)
     ∧ env = ToArgv command
     ∧ executable :: argv = ToArgv command).
Proof.
  unfold splitCommand, splitCommand_words.
  pose proof (range_characterised (ToArgv command) (ToArgv command) 0 [])
    as Hrange.
  destruct (splitCommand_range (ToArgv command) 0 (ToArgv command) [])
    as [e a v|v].
  - destruct Hrange as (assignments & rest & Hwords & Hall & He & -> & ->).
    intros [= <- <- <-]. left. simpl. rewrite Hwords.
    by rewrite drop_past_middle.
  - destruct Hrange as [Hall ->].
    destruct (ToArgv command) as [|w ws] eqn:Hwords; [done|].
    intros [= <- <- <-]. right. done.
Qed.

Lemma splitCommand_accounts_for_words_witness :
  ["A=1"; "B=2"] ++ "echo" :: ["x=y"; "hi"]
  = @ToArgv example_imports "A=1 B=2 echo x=y hi"
  ∧ plain "echo".
Proof.
  destruct (@splitCommand_accounts_for_words example_imports
              "A=1 B=2 echo x=y hi" "echo" ["x=y"; "hi"] ["A=1"; "B=2"]
              eq_refl) as [(Hwords & _ & Hplain)|(Hall & _)].
  - by split.
  - exfalso. apply Forall_forall with (x := "echo") in Hall.
    + discriminate Hall.
    + apply list_elem_of_In. vm_compute. set_solver.
Defined.

(** ** The string tests the code relies on *)

Lemma HasPrefix_spec s prefix :
  strings.HasPrefix s prefix = true ↔ ∃ rest, s = prefix +:+ rest.
Proof.
  revert s. induction prefix as [|c prefix IH]; intros s.
  - destruct s; simpl; split; eauto.
  - destruct s as [|d s]; simpl.
    + split; [done|]. by intros [rest Hrest].
    + destruct (decide (c = d)) as [->|Hne].
      * rewrite IH. split.
        -- intros [rest ->]. by exists rest.
        -- intros [rest [= ->]]. by exists rest.
      * split; [done|]. intros [rest [= ? _]]. congruence.
Qed.

Lemma Contains_cons c s substr :
  strings.Contains (String c s) substr
  = strings.HasPrefix (String c s) substr || strings.Contains s substr.
Proof. done. Qed.

Lemma Contains_spec s substr :
  strings.Contains s substr = true
  ↔ ∃ before after, s = before +:+ substr +:+ after.
Proof.
  induction s as [|c s IH].
  - change (strings.Contains "" substr)
      with (strings.HasPrefix "" substr || false).
    rewrite orb_false_r, HasPrefix_spec. split.
    + intros [rest Hrest]. by exists "", rest.
    + intros (before & after & Hs). destruct before; [by exists after|done].
  - rewrite Contains_cons, orb_true_iff, HasPrefix_spec, IH. split.
    + intros [[rest Hrest]|(before & after & ->)].
      * by exists "", rest.
      * by exists (String c before), after.
    + intros (before & after & Hs). destruct before as [|d before].
      * left. by exists after.
      * right. inversion Hs. by exists before, after.
Qed.

Lemma append_cons c s1 s2 : String c s1 +:+ s2 = String c (s1 +:+ s2).
Proof. done. Qed.

Lemma substring_whole s : String.substring 0 (String.length s) s = s.
Proof. induction s as [|c s IH]; simpl; by rewrite ?IH. Qed.

Lemma substring_skip before s :
  String.substring (String.length before) (String.length s) (before +:+ s)
  = s.
Proof.
  induction before as [|c before IH]; simpl; [apply substring_whole|done].
Qed.

Lemma length_append s1 s2 :
  String.length (s1 +:+ s2) = String.length s1 + String.length s2.
Proof. induction s1 as [|c s1 IH]; simpl; by rewrite ?IH. Qed.

(** A string is its first [i] characters followed by the others. *)
Lemma substring_split s :
  ∀ i,
    i ≤ String.length s →
    s = String.substring 0 i s
        +:+ String.substring i (String.length s - i) s.
Proof.
  induction s as [|c s IH]; intros i Hi.
  - destruct i; [done|simpl in Hi; lia].
  - destruct i as [|i]; simpl.
    + by rewrite substring_whole.
    + rewrite append_cons. f_equal. apply IH. simpl in Hi. lia.
Qed.

Lemma HasSuffix_spec s suffix :
  strings.HasSuffix s suffix = true ↔ ∃ before, s = before +:+ suffix.
Proof.
  unfold strings.HasSuffix. rewrite andb_true_iff, !bool_decide_eq_true.
  split.
  - intros [Hlen Hsub].
    exists (String.substring 0 (String.length s - String.length suffix) s).
    pose proof (substring_split s (String.length s - String.length suffix))
      as Hsplit.
    replace (String.length s - (String.length s - String.length suffix))
      with (String.length suffix) in Hsplit by lia.
    rewrite Hsub in Hsplit. apply Hsplit. lia.
  - intros [before ->]. rewrite length_append. split; [lia|].
    replace (String.length before + String.length suffix
             - String.length suffix) with (String.length before) by lia.
    apply substring_skip.
Qed.

(** X2.  Every entry of the [env] that [splitCommand] returns contains the
    character ['='], somewhere: the shape KEY=VALUE is not asked for.  And
    when some word of the command line has no ['='], the executable that
    [splitCommand] returns has none either. *)
Theorem splitCommand_env_has_equals_sign `{Imports}
    (command executable : string) (argv env : list string) :
  splitCommand command = Ret (executable, argv, env) →
  (∀ word, word ∈ env → ∃ before after, word = before +:+ "=" +:+ after)
  ∧ ((∃ word, word ∈ ToArgv command
              ∧ ∀ before after, word ≠ before +:+ "=" +:+ after) →
     ∀ before after, executable ≠ before +:+ "=" +:+ after).
Proof.
  unfold splitCommand, splitCommand_words.
  pose proof (range_characterised (ToArgv command) (ToArgv command) 0 [])
    as Hrange.
  destruct (splitCommand_range (ToArgv command) 0 (ToArgv command) [])
    as [e a v|v].
  - destruct Hrange as (assignments & rest & Hwords & Hall & He & -> & ->).
    intros [= <- <- <-]. split.
    + intros word Hword. apply Contains_spec.
      rewrite Forall_forall in Hall. apply Hall. exact Hword.
    + intros _ before after ->.
      assert (strings.Contains (before +:+ "=" +:+ after) "=" = true)
        as Hhas by (apply Contains_spec; eauto).
      unfold plain in He. congruence.
  - destruct Hrange as [Hall ->].
    destruct (ToArgv command) as [|w ws] eqn:Hwords; [done|].
    intros [= <- <- <-]. split.
    + intros word Hword. apply Contains_spec.
      rewrite Forall_forall in Hall. apply Hall. exact Hword.
    + intros (word & Hword & Hnone). exfalso.
      rewrite Forall_forall in Hall.
      assert (assignment word) as Hhas by (apply Hall; exact Hword).
      apply Contains_spec in Hhas as (before & after & ->).
      by apply (Hnone before after).
Qed.

Lemma splitCommand_env_has_equals_sign_witness :
  ∃ before after, "PATH==x" = before +:+ "=" +:+ after.
Proof.
  destruct (@splitCommand_env_has_equals_sign example_imports
              "PATH==x make" "make" [] ["PATH==x"] eq_refl) as [Henv _].
  apply Henv. by apply list_elem_of_here.
Defined.

(** X3.  [Start] runs the build exactly when the executable it parsed is
    some text, possibly none, followed by [".go"]: it then calls
    [Run("go install")] first and goes on only if that succeeds.  Otherwise
    it runs no blocking command at all and hands the executable as parsed
    to [runAsync]. *)
Theorem Start_builds_iff_go_suffix `{Imports} `{Host}
    (commandstr : string) (wd : list In) (s : state) (dir : string)
    (executable : string) (argv env : list string) :
  getWd wd s = (Ret (dir, None), s) →
  splitCommand commandstr = Ret (executable, argv, env) →
  ((∃ before, executable = before +:+ ".go") →
     Start commandstr wd s
     = (err ← Run "go install" wd;
        match err with
        | Some e => mret (Some e)
        | None => runAsync (async_command (path.Base dir) dir argv env)
        end) s)
  ∧ ((∀ before, executable ≠ before +:+ ".go") →
     Start commandstr wd s
     = runAsync (async_command executable dir argv env) s).
Proof.
  intros Hwd Hsplit. split.
  - intros Hgo. apply HasSuffix_spec in Hgo.
    unfold Start. unfold_go. by rewrite Hwd, Hsplit, Hgo.
  - intros Hplain.
    assert (strings.HasSuffix executable ".go" = false) as Hno.
    { destruct (strings.HasSuffix executable ".go") eqn:Hgo; [|done].
      apply HasSuffix_spec in Hgo as [before ->].
      by destruct (Hplain before). }
    unfold Start. unfold_go. by rewrite Hwd, Hsplit, Hno.
Qed.

Lemma Start_builds_iff_go_suffix_witness :
  @Start example_imports example_host "gopher -v" [["/srv"]]
    (fresh "/srv" ["/srv"])
  = @runAsync example_imports (async_command "gopher" "/srv" ["-v"] [])
      (fresh "/srv" ["/srv"])
  ∧ terminal
      (@Start example_imports example_host ".go" [["/srv"]]
         (fresh "/srv" ["/srv"])).2
    = [(Stdout, "out"); (Stderr, "err")].
Proof.
  destruct (@Start_builds_iff_go_suffix example_imports example_host
              "gopher -v" [["/srv"]] (fresh "/srv" ["/srv"]) "/srv"
              "gopher" ["-v"] [] eq_refl eq_refl) as [_ Hplain].
  destruct (@Start_builds_iff_go_suffix example_imports example_host
              ".go" [["/srv"]] (fresh "/srv" ["/srv"]) "/srv"
              ".go" [] [] eq_refl eq_refl) as [Hgo _].
  split.
  - apply Hplain. intros before Heq.
    assert (strings.HasSuffix "gopher" ".go" = true) as Hgo'
      by (apply HasSuffix_spec; by exists before).
    discriminate Hgo'.
  - rewrite Hgo; [by vm_compute|]. by exists "".
Defined.

(** ** More on blocking runs *)

Lemma append_empty s : s +:+ "" = s.
Proof. induction s as [|c s IH]; [done|]. unfold String.app in *. simpl. by rewrite IH. Qed.

Section CaptureFacts.
Context `{Imports} `{Host}.

Lemma toCmd_Dir gcmd : Dir (toCmd gcmd).1 = wd gcmd.
Proof. simpl. by case_decide; [|destruct (decide (wd gcmd = ""))]. Qed.

End CaptureFacts.

Section BlockingCalls.
Context `{Imports} `{Host}.

Lemma deliver_appends cmd out :
  ∀ rec s,
    ∃ more,
      (deliver cmd out rec s).2 = set_terminal (terminal s ++ more) s
      ∧ length more = length out.
Proof.
  induction out as [|[f bytes] out IH]; intros rec s.
  - exists []. simpl. by rewrite app_nil_r, set_terminal_same.
  - simpl. destruct (write _ bytes rec s) as [rec' s'] eqn:Hw.
    assert (∃ w, s' = set_terminal (terminal s ++ [w]) s) as [w ->].
    { unfold write in Hw.
      destruct (match f with Stdout => _ | Stderr => _ end) as [g|g color].
      - inversion Hw. eauto.
      - destruct (tee color bytes). inversion Hw. eauto. }
    destruct (IH rec' (set_terminal (terminal s ++ [w]) s))
      as (more & Hmore & Hlen).
    exists (w :: more). rewrite Hmore. simpl.
    rewrite <- app_assoc. split; [done|]. by rewrite Hlen.
Qed.

Lemma command_run_appends gcmd s :
  ∃ r more,
    command_run gcmd s = (Ret r, set_terminal (terminal s ++ more) s)
    ∧ length more = length (child (toCmd gcmd).1 s).1.
Proof.
  unfold command_run, toCmd, Cmd_Run. unfold_go. simpl.
  destruct (child _ s) as [out err]. simpl.
  match goal with |- context [deliver ?c out ?r s] =>
    destruct (deliver_appends c out r s) as (more & Hmore & Hlen);
    destruct (deliver c out r s) as [rec' s'] end.
  simpl in Hmore. subst s'.
  destruct (captureOutput gcmd); eauto.
Qed.

Lemma run_appends capture commandstr wd s :
  ∃ r more, run capture commandstr wd s
            = (r, set_terminal (terminal s ++ more) s).
Proof.
  unfold run. unfold_go.
  pose proof (getWd_reads wd s) as Hwd.
  destruct (getWd wd s) as [[[dir [e|]]|msg] s0]; simpl in Hwd; subst s0.
  - exists (Ret ("", Some e)), []. by rewrite app_nil_r, set_terminal_same.
  - destruct (splitCommand commandstr) as [[[executable argv] env]|msg].
    + match goal with |- context [command_run ?c s] =>
        destruct (command_run_appends c s) as (r & more & -> & _) end.
      eauto.
    + exists (Panic msg), []. by rewrite app_nil_r, set_terminal_same.
  - exists (Panic msg), []. by rewrite app_nil_r, set_terminal_same.
Qed.

Lemma bash_appends capture script wd s :
  ∃ r more, bash capture script wd s
            = (r, set_terminal (terminal s ++ more) s).
Proof.
  unfold bash. unfold_go.
  pose proof (getWd_reads wd s) as Hwd.
  destruct (getWd wd s) as [[[dir [e|]]|msg] s0]; simpl in Hwd; subst s0.
  - exists (Ret ("", Some e)), []. by rewrite app_nil_r, set_terminal_same.
  - match goal with |- context [command_run ?c s] =>
      destruct (command_run_appends c s) as (r & more & -> & _) end.
    eauto.
  - exists (Panic msg), []. by rewrite app_nil_r, set_terminal_same.
Qed.

End BlockingCalls.

(** X5.  The four blocking entry points leave the program as it was except
    for the terminal, to which they only add: they schedule no unit, store
    and signal no process, touch neither counter nor flag, and do not change
    the working directory. *)
Theorem blocking_calls_only_write `{Imports} `{Host}
    (text : string) (wd : list In) (s : state) :
  (∃ r more, Run text wd s = (r, set_terminal (terminal s ++ more) s))
  ∧ (∃ r more, RunOutput text wd s = (r, set_terminal (terminal s ++ more) s))
  ∧ (∃ r more, Bash text wd s = (r, set_terminal (terminal s ++ more) s))
  ∧ (∃ r more,
       BashOutput text wd s = (r, set_terminal (terminal s ++ more) s)).
Proof.
  split; [|split; [|split]].
  - unfold Run. unfold_go.
    destruct (run_appends false text wd s) as (r & more & ->).
    destruct r as [[out err]|msg]; eauto.
  - apply run_appends.
  - unfold Bash. unfold_go.
    destruct (bash_appends false text wd s) as (r & more & ->).
    destruct r as [[out err]|msg]; eauto.
  - apply bash_appends.
Qed.

(** ** From the command line to the child *)

Section RunFacts.
Context `{Imports} `{Host}.

(** A blocking run without capture, once the directory and the three parts
    of the command are known. *)
Lemma command_run_plain executable argv env dir s :
  command_run {| executable := executable; argv := argv; env := env;
                 wd := dir; captureOutput := false; recorder := "" |} s
  = let cmd := {| Path := executable; Args := executable :: argv;
                  Dir := dir; Env := effectiveEnv env;
                  Stdout_of := File Stdout; Stderr_of := File Stderr |} in
    (Ret ("", (child cmd s).2),
     set_terminal (terminal s ++ (child cmd s).1) s).
Proof.
  set (gcmd := {| executable := executable; argv := argv; env := env;
                  wd := dir; captureOutput := false; recorder := "" |}).
  assert ((toCmd gcmd).1
          = {| Path := executable; Args := executable :: argv;
               Dir := dir; Env := effectiveEnv env;
               Stdout_of := File Stdout; Stderr_of := File Stderr |}) as Hcmd.
  { pose proof (toCmd_Dir gcmd) as Hdir. simpl in *. by rewrite Hdir. }
  simpl. rewrite <- Hcmd.
  destruct (child (toCmd gcmd).1 s) as [out err] eqn:Hchild.
  by apply command_run_without_capture.
Qed.

Lemma getWd_outcomes wd s :
  (wd = [[]] ∧ getWd wd s = (Panic index_out_of_range, s))
  ∨ (wd ≠ [[]] ∧ ∃ dir err, getWd wd s = (Ret (dir, err), s)).
Proof.
  unfold getWd, os_Getwd. unfold_go.
  destruct wd as [|d [|d' wd]].
  - right. split; [done|]. case_decide; eauto.
  - destruct d as [|dir d]; [by left|]. right. split; [done|]. eauto.
  - right. split; [done|]. case_decide; eauto.
Qed.

End RunFacts.

(** X6.  [Run] on a command line of leading assignments, an executable and
    arguments runs exactly one child: the executable with the arguments
    after its own name, in the resolved directory, with the environment
    [effectiveEnv] makes of the assignments, and wired to the terminal.
    [Run] returns the error of that child, and the writes of the child are
    added to the terminal. *)
Theorem Run_runs_the_split_command `{Imports} `{Host}
    (command : string) (wd : list In) (s : state) (dir : string)
    (assignments : list string) (word : string) (rest : list string) :
  getWd wd s = (Ret (dir, None), s) →
  ToArgv command = assignments ++ word :: rest →
  Forall assignment assignments →
  plain word →
  let cmd := {| Path := word; Args := word :: rest; Dir := dir;
                Env := effectiveEnv assignments;
                Stdout_of := File Stdout; Stderr_of := File Stderr |} in
  Run command wd s
  = (Ret (child cmd s).2, set_terminal (terminal s ++ (child cmd s).1) s).
Proof.
  intros Hwd Hwords Hall Hword cmd.
  assert (splitCommand command = Ret (word, rest, assignments)) as Hsplit.
  { unfold splitCommand. rewrite Hwords.
    by apply splitCommand_words_leading. }
  unfold Run, run. unfold_go. rewrite Hwd, Hsplit.
  by rewrite command_run_plain.
Qed.

Lemma Run_runs_the_split_command_witness :
  @Run example_imports example_host "A=1 echo hi" [["/srv"]]
    (fresh "/home" ["/home"])
  = (Ret None,
     set_terminal [(Stdout, "out"); (Stderr, "err")]
       (fresh "/home" ["/home"])).
Proof.
  apply (@Run_runs_the_split_command example_imports example_host
           "A=1 echo hi" [["/srv"]] (fresh "/home" ["/home"]) "/srv"
           ["A=1"] "echo" ["hi"]).
  - reflexivity.
  - reflexivity.
  - repeat constructor.
  - reflexivity.
Defined.

(** X8.  [Bash] does not tokenize its script: it runs [bash] with the two
    arguments ["-c"] and the script as it is.  So [Bash(script)] does what
    [Run] does on any command line that tokenizes to those three words, and
    [BashOutput] what [RunOutput] does. *)
Theorem Bash_is_Run_of_bash_c `{Imports} `{Host}
    (commandstr script : string) (wd : list In) (s : state) :
  ToArgv commandstr = ["bash"; "-c"; script] →
  Bash script wd s = Run commandstr wd s
  ∧ BashOutput script wd s = RunOutput commandstr wd s.
Proof.
  intros Hwords.
  assert (splitCommand commandstr = Ret ("bash", ["-c"; script], []))
    as Hsplit.
  { unfold splitCommand. rewrite Hwords.
    by apply (splitCommand_words_leading []). }
  unfold Bash, BashOutput, Run, RunOutput, bash, run. unfold_go.
  rewrite Hsplit. split; by destruct (getWd wd s) as [[[dir [e|]]|msg] s0].
Qed.

Lemma Bash_is_Run_of_bash_c_witness :
  @Bash example_imports example_host "ls" [] (fresh "/srv" ["/srv"])
  = @Run example_imports example_host "bash -c ls" [] (fresh "/srv" ["/srv"]).
Proof.
  apply (@Bash_is_Run_of_bash_c example_imports example_host
           "bash -c ls" "ls" [] (fresh "/srv" ["/srv"])).
  reflexivity.
Defined.

(** X9.  [Bash] and [BashOutput] accept every script, the empty one
    included: they panic only when the directory argument is an [In]
    without any element. *)
Theorem Bash_panics_iff `{Imports} `{Host}
    (script : string) (wd : list In) (s : state) :
  ((∃ msg, (Bash script wd s).1 = Panic msg) ↔ wd = [[]])
  ∧ ((∃ msg, (BashOutput script wd s).1 = Panic msg) ↔ wd = [[]]).
Proof.
  unfold Bash, BashOutput, bash. unfold_go.
  destruct (getWd_outcomes wd s) as [[-> ->]|(Hwd & dir & err & ->)].
  - split; (split; [by intros _|]); intros _; eauto.
  - destruct err as [e|].
    + split; (split; [by intros [msg ?]|by intros ?]).
    + repeat match goal with |- context [command_run ?c s] =>
        destruct (command_run_terminal_only c s) as (? & ? & ? & ->) end.
      simpl. split; (split; [by intros [msg ?]|by intros ?]).
Qed.

(** ** More on [Start] *)

Lemma Base_not_empty p : path.Base p ≠ "".
Proof. unfold path.Base. repeat case_decide; done. Qed.

Lemma running_kill_table_mono reg id ps p :
  running (kill_table reg id ps) p = true → running ps p = true.
Proof. intros Hp. by apply running_kill_table in Hp as [? _]. Qed.

(** X10.  A call of [Start] that returns has created no process and stored
    no handle: the process table keeps its length, no process that was not
    running is running afterwards, and the registry is as before.  Both the
    creation and the store are left to the unit, which has not run when
    [Start] returns. *)
Theorem Start_creates_no_process `{Imports} `{Host}
    (commandstr : string) (wd : list In) (s s' : state)
    (r : option error) :
  (0 ≤ waitgroup s)%Z →
  Start commandstr wd s = (Ret r, s') →
  length (processes s') = length (processes s)
  ∧ (∀ p, running (processes s') p = true → running (processes s) p = true)
  ∧ spawnedProcesses s' = spawnedProcesses s
  ∧ (length (goroutines s') = length (goroutines s)
     ∨ (r = None
        ∧ ∃ gr, goroutines s' = goroutines s ++ [gr]
                ∧ g_stage gr = GSpawned)).
Proof.
  intros Hwg HStart.
  destruct (Start_effect _ _ _ _ _ Hwg HStart)
    as [(Hg & _ & _ & Hr & Hp)|(gcmd & -> & Hg & _ & _ & Hr & Hp)].
  - rewrite Hp, Hr, Hg. auto.
  - rewrite Hp, Hr, Hg, length_kill_table.
    split; [done|]. split; [apply running_kill_table_mono|].
    split; [done|]. right. split; [done|]. by exists (unit_of gcmd).
Qed.

Lemma Start_creates_no_process_witness :
  let s' := (@Start example_imports example_host "server -p 80" []
               (fresh "/srv" ["/srv"])).2 in
  length (processes s') = 0 ∧ spawnedProcesses s' = ∅.
Proof.
  destruct (@Start example_imports example_host "server -p 80" []
              (fresh "/srv" ["/srv"])) as [[r|msg] s'] eqn:HStart;
    [|by vm_compute in HStart].
  simpl.
  pose proof (@Start_creates_no_process example_imports example_host
                "server -p 80" [] (fresh "/srv" ["/srv"]) s' r
                (Z.le_refl 0) HStart) as (Hlen & _ & Hreg & _).
  split; [exact Hlen | exact Hreg].
Defined.

(** X11.  For a Go source file the unit that [Start] schedules carries the
    base name of the directory as its program and derives its key from that
    name and the arguments alone: the name of the source file is in neither.
    The program name is never empty. *)
Theorem Start_go_file_key `{Imports} `{Host}
    (commandstr : string) (wd : list In) (s s1 : state) (dir : string)
    (executable : string) (argv env : list string) :
  (0 ≤ waitgroup s)%Z →
  getWd wd s = (Ret (dir, None), s) →
  splitCommand commandstr = Ret (executable, argv, env) →
  strings.HasSuffix executable ".go" = true →
  Run "go install" wd s = (Ret None, s1) →
  ∃ s' gr,
    Start commandstr wd s = (Ret None, s')
    ∧ goroutines s' = goroutines s ++ [gr]
    ∧ Path (g_cmd gr) = path.Base dir
    ∧ Path (g_cmd gr) ≠ ""
    ∧ Args (g_cmd gr) = path.Base dir :: argv
    ∧ Dir (g_cmd gr) = dir
    ∧ g_id gr = path.Base dir +:+ strings.Join argv ",".
Proof.
  intros Hwg Hwd Hsplit Hgo Hbuild.
  assert (Start commandstr wd s
          = runAsync (async_command (path.Base dir) dir argv env) s1)
    as HStart.
  { unfold Start. unfold_go. by rewrite Hwd, Hsplit, Hgo, Hbuild. }
  destruct (Run_terminal_only "go install" wd s) as (rb & t & Ht).
  rewrite Ht in Hbuild. inversion Hbuild; subst rb s1.
  destruct (runAsync_schedules
              (async_command (path.Base dir) dir argv env)
              (set_terminal t s) Hwg) as (s' & Hrun & Hg & _).
  exists s', (unit_of (async_command (path.Base dir) dir argv env)).
  rewrite HStart. split; [done|]. split; [done|].
  split; [done|]. split; [apply Base_not_empty|]. split; [done|].
  split; [apply toCmd_Dir|].
  unfold unit_of, hash. simpl. case_bool_decide; [done|].
  destruct argv; [|simpl in *; lia]. simpl. by rewrite append_empty.
Qed.

Lemma Start_go_file_key_witness :
  ∃ s' gr,
    @Start example_imports example_host "main.go -v" [["/srv/app"]]
      (fresh "/srv" ["/srv"]) = (Ret None, s')
    ∧ goroutines s' = [gr]
    ∧ g_id gr = "app-v".
Proof.
  destruct (@Start_go_file_key example_imports example_host
              "main.go -v" [["/srv/app"]] (fresh "/srv" ["/srv"])
              (set_terminal [(Stdout, "out"); (Stderr, "err")]
                 (fresh "/srv" ["/srv"]))
              "/srv/app" "main.go" ["-v"] []
              (Z.le_refl 0) eq_refl eq_refl eq_refl eq_refl)
    as (s' & gr & HStart & Hg & _ & _ & _ & _ & Hid).
  exists s', gr. split; [exact HStart|]. split; [exact Hg|exact Hid].
Defined.

(** ** More on schedules *)

Lemma count_of_zero f gs :
  count_of f gs = 0 ↔ Forall (λ gr, f gr = false) gs.
Proof.
  unfold count_of. induction gs as [|a l IH]; simpl.
  - split; [by constructor|done].
  - destruct (f a) eqn:Hf; simpl.
    + split; [done|]. intros Hall. inversion Hall; congruence.
    + rewrite IH. split; [by constructor|]. intros Hall. by inversion Hall.
Qed.

Section BarrierFacts.
Context `{Imports} `{Host}.

(** The flag is set only by a [runAsync] that schedules a unit. *)
Lemma step_flag ev s s' :
  barrier_inv s →
  (waitExit s = true → goroutines s ≠ []) →
  step ev s = Some s' →
  (waitExit s' = true → goroutines s' ≠ []).
Proof.
  intros [Hwg _] Hflag Hstep.
  assert (∀ g st s0, goroutines s0 = goroutines s → waitExit s0 = waitExit s →
            waitExit (set_stage g st s0) = true →
            goroutines (set_stage g st s0) ≠ []) as Hstage.
  { intros g st s0 Hg Hw Hf. simpl in *. rewrite Hw in Hf.
    specialize (Hflag Hf). rewrite Hg. intros Hnil.
    apply (f_equal length) in Hnil. rewrite length_alter in Hnil.
    by destruct (goroutines s). }
  destruct ev as [commandstr wd|g r|g|g|p]; simpl in Hstep.
  - destruct (Start commandstr wd s) as [[r|msg] s1] eqn:HStart; [|done].
    inversion Hstep; subst s1.
    apply Start_effect in HStart; [|lia].
    destruct HStart as [(Hg & _ & Hf & _)|(gcmd & _ & Hg & _)].
    + by rewrite Hg, Hf.
    + rewrite Hg. intros _. by destruct (goroutines s).
  - destruct (stage_of g s) as [[| | | |]|]; try done.
    destruct r; inversion Hstep; subst s'; by apply Hstage.
  - destruct (goroutines s !! g) as [gr|]; [|done].
    destruct (g_stage gr); try done.
    inversion Hstep; subst s'; by apply Hstage.
  - destruct (stage_of g s) as [[|?|p| |]|]; try done.
    unfold waitgroup_Add in Hstep.
    destruct (processes s !! p) as [[| |]|]; try done;
      case_bool_decide; try done;
      inversion Hstep; subst s'; by apply Hstage.
  - destruct (processes s !! p) as [[| |]|]; try done.
    by inversion Hstep; subst s'.
Qed.

Lemma exec_flag evs :
  ∀ s s',
    barrier_inv s →
    (waitExit s = true → goroutines s ≠ []) →
    exec evs s = Some s' →
    (waitExit s' = true → goroutines s' ≠ []).
Proof.
  induction evs as [|ev evs IH]; intros s s' Hinv Hflag Hexec;
    simpl in Hexec.
  - by inversion Hexec; subst.
  - destruct (step ev s) as [s1|] eqn:Hstep; [|done].
    eapply (IH s1); [| |done].
    + by eapply step_barrier_inv.
    + by eapply step_flag.
Qed.

End BarrierFacts.

(** X12.  In every state of a run from a fresh state the counter of the wait
    group is the number of units that have not executed [waitgroup.Done()]:
    it is never negative, [waitgroup.Wait()] can return exactly when every
    unit has executed [Done], the flag [waitExit] is set exactly when a unit
    was ever scheduled, and [Done] never panics: a unit blocked in
    [cmd.Wait()] whose process has ended takes its last step and lowers the
    counter by one. *)
Theorem barrier_counts_units `{Imports} `{Host}
    (dir : string) (ds : list string) (evs : list event) (s : state) :
  exec evs (fresh dir ds) = Some s →
  waitgroup s = Z.of_nat (count_of owes_Done (goroutines s))
  ∧ (0 ≤ waitgroup s)%Z
  ∧ (waitgroup_Wait_returns s = true
     ↔ Forall (λ gr, g_stage gr = GDone) (goroutines s))
  ∧ (waitExit s = true ↔ goroutines s ≠ [])
  ∧ (∀ g p,
       stage_of g s = Some (GWaiting p) →
       running (processes s) p = false →
       ∃ s', step (GoDone g) s = Some s'
             ∧ waitgroup s' = (waitgroup s - 1)%Z
             ∧ stage_of g s' = Some GDone).
Proof.
  intros Hexec.
  pose proof (exec_barrier_inv evs _ _ (fresh_barrier_inv dir ds) Hexec)
    as [Hwg Hflag].
  split; [done|]. split; [lia|]. split; [|split].
  - unfold waitgroup_Wait_returns. rewrite bool_decide_eq_true, Hwg.
    change 0%Z with (Z.of_nat 0). rewrite Nat2Z.inj_iff, count_of_zero.
    apply Forall_iff. intros gr. unfold owes_Done.
    destruct (g_stage gr); split; done.
  - split.
    + eapply (exec_flag evs (fresh dir ds)); [apply fresh_barrier_inv| |done].
      done.
    + destruct Hflag as [Hnil|Htrue]; done.
  - intros g p Hstage Hrun. simpl. rewrite Hstage.
    unfold stage_of in Hstage.
    destruct (goroutines s !! g) as [gr|] eqn:Hg; [|done].
    inversion Hstage as [Hst].
    assert (0 < count_of owes_Done (goroutines s)) as Hpos.
    { eapply count_of_positive; [done|]. unfold owes_Done. by rewrite Hst. }
    unfold waitgroup_Add. rewrite bool_decide_eq_false_2 by lia.
    unfold running in Hrun.
    exists (set_stage g GDone (set_waitgroup (waitgroup s + -1) s)).
    split; [by destruct (processes s !! p) as [[| |]|]|].
    split; [simpl; lia|]. by eapply stage_of_set_stage.
Qed.

Lemma barrier_counts_units_witness :
  ∃ s,
    @exec example_imports example_host
      [CallStart "server" []; GoStart 0 None; GoStore 0; ProcExit 0; GoDone 0]
      (fresh "/srv" ["/srv"]) = Some s
    ∧ waitgroup s = 0%Z
    ∧ waitgroup_Wait_returns s = true.
Proof.
  destruct (@exec example_imports example_host
              [CallStart "server" []; GoStart 0 None; GoStore 0; ProcExit 0;
               GoDone 0] (fresh "/srv" ["/srv"])) as [s|] eqn:Hs;
    [|by vm_compute in Hs].
  pose proof (@barrier_counts_units example_imports example_host
                "/srv" ["/srv"] _ s Hs) as (Hwg & _ & _ & _ & _).
  exists s. split; [done|].
  vm_compute in Hs. inversion Hs; subst s. split; reflexivity.
Defined.

(** ** The registry over a run *)

Section RegistryFacts.
Context `{Imports} `{Host}.

Lemma step_registry_inv ev s s' :
  barrier_inv s → registry_inv s → step ev s = Some s' → registry_inv s'.
Proof.
  intros [Hwg _] [Hb Hr] Hstep.
  destruct ev as [commandstr wd|g r|g|g|p]; simpl in Hstep.
  - destruct (Start commandstr wd s) as [[r|msg] s1] eqn:HStart; [|done].
    inversion Hstep; subst s1.
    apply Start_effect in HStart; [|lia].
    destruct HStart as [(Hg & _ & _ & Hreg & Hp)
                       |(gcmd & _ & Hg & _ & _ & Hreg & Hp)];
      split; rewrite ?Hg, ?Hreg, ?Hp, ?length_kill_table; try done.
    + intros g gr p Hgr Hst.
      apply lookup_app_Some in Hgr as [Hgr|[_ Hgr]]; [by eapply Hb|].
      apply list_lookup_singleton_Some in Hgr as [_ <-].
      by destruct Hst.
    + intros id p Hid. destruct (Hr id p Hid) as (Hlt & g & gr & Hgr & ?).
      split; [done|]. exists g, gr. split; [|done].
      by apply lookup_app_l_Some.
  - unfold stage_of in Hstep.
    destruct (goroutines s !! g) as [gr|] eqn:Hg; [|done]. simpl in Hstep.
    destruct (g_stage gr) eqn:Hst; try done.
    assert (∀ st id p,
              spawnedProcesses s !! id = Some p →
              ∃ g' gr',
                alter (with_stage st) g (goroutines s) !! g' = Some gr'
                ∧ g_id gr' = id
                ∧ (g_stage gr' = GWaiting p ∨ g_stage gr' = GDone)) as Hkeep.
    { intros st id p Hid.
      destruct (Hr id p Hid) as (_ & g' & gr' & Hgr' & H1).
      exists g', gr'. split; [|done]. rewrite list_lookup_alter_ne; [done|].
      intros <-. rewrite Hg in Hgr'. inversion Hgr'; subst gr'.
      destruct H1 as (_ & [Hw|Hd]); rewrite Hst in *; done. }
    destruct r as [e|]; inversion Hstep; subst s'; split; simpl.
    + intros g0 gr0 p Hgr0 Hstage.
      apply lookup_with_stage in Hgr0 as (gr1 & H1 & _ & [[-> Hs]|[? ->]]).
      * rewrite Hs in Hstage. by destruct Hstage.
      * by eapply Hb.
    + intros id p Hid. split; [by apply (Hr id p)|by apply Hkeep].
    + intros g0 gr0 p Hgr0 Hstage. rewrite length_app. simpl.
      apply lookup_with_stage in Hgr0 as (gr1 & H1 & _ & [[-> Hs]|[? ->]]).
      * rewrite Hs in Hstage. destruct Hstage as [[= <-]|?]; [lia|done].
      * assert (p < length (processes s)) by (by eapply Hb). lia.
    + intros id p Hid. rewrite length_app. simpl.
      split; [|by apply Hkeep].
      assert (p < length (processes s)) by (by apply (Hr id p)). lia.
  - destruct (goroutines s !! g) as [gr|] eqn:Hg; [|done].
    destruct (g_stage gr) eqn:Hst; try done.
    inversion Hstep; subst s'; split; simpl.
    + intros g0 gr0 q Hgr0 Hstage.
      apply lookup_with_stage in Hgr0 as (gr1 & H1 & _ & [[-> Hs]|[? ->]]).
      * rewrite Hs in Hstage. destruct Hstage as [?|[= <-]]; [done|].
        apply (Hb g gr p Hg). by left.
      * by eapply Hb.
    + intros id q Hid.
      destruct (decide (g_id gr = id)) as [<-|Hne].
      * rewrite lookup_insert_eq in Hid. inversion Hid; subst q.
        split; [apply (Hb g gr p Hg); by left|].
        exists g, (with_stage (GWaiting p) gr).
        rewrite list_lookup_alter_eq, Hg. split; [done|]. split; [done|].
        by left.
      * rewrite lookup_insert_ne in Hid by done.
        destruct (Hr id q Hid) as (Hlt & g' & gr' & Hgr' & Hid' & Hst').
        split; [done|]. exists g', gr'. split; [|done].
        rewrite list_lookup_alter_ne; [done|].
        intros <-. rewrite Hg in Hgr'. inversion Hgr'; subst gr'.
        destruct Hst' as [Hw|Hd]; rewrite Hst in *; done.
  - unfold stage_of in Hstep.
    destruct (goroutines s !! g) as [gr|] eqn:Hg; [|done]. simpl in Hstep.
    destruct (g_stage gr) eqn:Hst; try done.
    unfold waitgroup_Add in Hstep.
    assert (s' = set_stage g GDone (set_waitgroup (waitgroup s + -1) s))
      as ->
      by (destruct (processes s !! p) as [[| |]|]; try done;
          case_bool_decide; try done; by inversion Hstep).
    split; simpl.
    + intros g0 gr0 q Hgr0 Hstage.
      apply lookup_with_stage in Hgr0 as (gr1 & H1 & _ & [[-> Hs]|[? ->]]).
      * rewrite Hs in Hstage. by destruct Hstage.
      * by eapply Hb.
    + intros id q Hid.
      destruct (Hr id q Hid) as (Hlt & g' & gr' & Hgr' & Hid' & Hst').
      split; [done|]. destruct (decide (g = g')) as [<-|Hne].
      * exists g, (with_stage GDone gr).
        rewrite list_lookup_alter_eq, Hg. split; [done|].
        rewrite Hg in Hgr'. inversion Hgr'; subst gr'.
        split; [done|]. by right.
      * exists g', gr'. rewrite list_lookup_alter_ne by done. done.
  - destruct (processes s !! p) as [[| |]|] eqn:Hp; try done.
    inversion Hstep; subst s'. split; simpl; rewrite length_insert; done.
Qed.

Lemma step_registry_grows ev s s' id :
  barrier_inv s →
  step ev s = Some s' →
  is_Some (spawnedProcesses s !! id) →
  is_Some (spawnedProcesses s' !! id).
Proof.
  intros [Hwg _] Hstep Hid.
  destruct ev as [commandstr wd|g r|g|g|p]; simpl in Hstep.
  - destruct (Start commandstr wd s) as [[r|msg] s1] eqn:HStart; [|done].
    inversion Hstep; subst s1.
    apply Start_effect in HStart; [|lia].
    by destruct HStart as [(_ & _ & _ & -> & _)|(? & _ & _ & _ & _ & -> & _)].
  - destruct (stage_of g s) as [[| | | |]|]; try done.
    by destruct r; inversion Hstep; subst s'.
  - destruct (goroutines s !! g) as [gr|]; [|done].
    destruct (g_stage gr); try done.
    inversion Hstep; subst s'. simpl.
    destruct (decide (g_id gr = id)) as [->|Hne].
    + rewrite lookup_insert_eq. eauto.
    + by rewrite lookup_insert_ne.
  - destruct (stage_of g s) as [[|?|p| |]|]; try done.
    unfold waitgroup_Add in Hstep.
    destruct (processes s !! p) as [[| |]|]; try done;
      case_bool_decide; try done; by inversion Hstep; subst s'.
  - destruct (processes s !! p) as [[| |]|]; try done.
    by inversion Hstep; subst s'.
Qed.

Lemma exec_registry evs :
  ∀ s s',
    barrier_inv s →
    registry_inv s →
    exec evs s = Some s' →
    registry_inv s'
    ∧ ∀ id, is_Some (spawnedProcesses s !! id) →
            is_Some (spawnedProcesses s' !! id).
Proof.
  induction evs as [|ev evs IH]; intros s s' Hb Hinv Hexec; simpl in Hexec.
  - by inversion Hexec; subst.
  - destruct (step ev s) as [s1|] eqn:Hstep; [|done].
    destruct (IH s1 s') as [Hinv' Hgrow]; try done.
    + by eapply step_barrier_inv.
    + by eapply step_registry_inv.
    + split; [done|]. intros id Hid. apply Hgrow.
      by eapply step_registry_grows.
Qed.

Lemma fresh_registry_inv dir ds : registry_inv (fresh dir ds).
Proof. split; simpl; intros; done. Qed.

End RegistryFacts.

(** X13.  Over a run from a fresh state the registry only grows: a key that
    holds a handle keeps holding one (a later store may replace the handle,
    nothing removes it, not even the end of the process). *)
Theorem registry_never_forgets `{Imports} `{Host}
    (dir : string) (ds : list string) (before after : list event)
    (s s' : state) (id : string) (p : Process) :
  exec before (fresh dir ds) = Some s →
  exec after s = Some s' →
  spawnedProcesses s !! id = Some p →
  ∃ p', spawnedProcesses s' !! id = Some p'.
Proof.
  intros Hbefore Hafter Hid.
  destruct (exec_registry before _ _ (fresh_barrier_inv dir ds)
              (fresh_registry_inv dir ds) Hbefore) as [Hinv _].
  pose proof (exec_barrier_inv before _ _ (fresh_barrier_inv dir ds) Hbefore)
    as Hb.
  destruct (exec_registry after _ _ Hb Hinv Hafter) as [_ Hgrow].
  destruct (Hgrow id) as [p' Hp']; eauto.
Qed.

Lemma registry_never_forgets_witness :
  ∃ s',
    @exec example_imports example_host
      ([CallStart "server" []; GoStart 0 None; GoStore 0]
       ++ [ProcExit 0; GoDone 0]) (fresh "/srv" ["/srv"]) = Some s'
    ∧ ∃ p', spawnedProcesses s' !! "server" = Some p'.
Proof.
  destruct (@exec example_imports example_host first_stored
              (fresh "/srv" ["/srv"])) as [s|] eqn:Hs;
    [|by vm_compute in Hs].
  destruct (@exec example_imports example_host [ProcExit 0; GoDone 0] s)
    as [s'|] eqn:Hs'.
  - exists s'. split.
    + change ([CallStart "server" []; GoStart 0 None; GoStore 0]
              ++ [ProcExit 0; GoDone 0])
        with (first_stored ++ [ProcExit 0; GoDone 0]).
      clear -Hs Hs'. vm_compute in Hs. inversion Hs; subst s.
      vm_compute in Hs'. inversion Hs'; subst s'. by vm_compute.
    + apply (@registry_never_forgets example_imports example_host
               "/srv" ["/srv"] first_stored [ProcExit 0; GoDone 0] s s'
               "server" 0 Hs Hs').
      clear Hs'. vm_compute in Hs. inversion Hs; subst s. by vm_compute.
  - exfalso. clear -Hs Hs'. vm_compute in Hs. inversion Hs; subst s.
    by vm_compute in Hs'.
Defined.

(** X14.  In every state of a run from a fresh state, a handle in the
    registry is the handle of a process that was created, and some unit with
    that key is past its store: the registry never holds a handle of a
    process that failed to start. *)
Theorem registry_holds_started_processes `{Imports} `{Host}
    (dir : string) (ds : list string) (evs : list event) (s : state)
    (id : string) (p : Process) :
  exec evs (fresh dir ds) = Some s →
  spawnedProcesses s !! id = Some p →
  is_Some (processes s !! p)
  ∧ ∃ g gr,
      goroutines s !! g = Some gr
      ∧ g_id gr = id
      ∧ (g_stage gr = GWaiting p ∨ g_stage gr = GDone).
Proof.
  intros Hexec Hid.
  destruct (exec_registry evs _ _ (fresh_barrier_inv dir ds)
              (fresh_registry_inv dir ds) Hexec) as [[_ Hreg] _].
  destruct (Hreg id p Hid) as [Hlt Hunit].
  split; [by apply lookup_lt_is_Some|done].
Qed.

Lemma registry_holds_started_processes_witness :
  ∃ s,
    @exec example_imports example_host first_stored (fresh "/srv" ["/srv"])
    = Some s
    ∧ is_Some (processes s !! 0).
Proof.
  destruct (@exec example_imports example_host first_stored
              (fresh "/srv" ["/srv"])) as [s|] eqn:Hs;
    [|by vm_compute in Hs].
  exists s. split; [done|].
  apply (@registry_holds_started_processes example_imports example_host
           "/srv" ["/srv"] first_stored s "server" 0 Hs).
  vm_compute in Hs. inversion Hs; subst s. by vm_compute.
Defined.

(** X15.  The registry keeps the handle of a process that has ended.  When
    [runAsync] runs for its key again, [Kill] on that handle fails, and
    [killSpawned] logs "Could not kill existing process": an ordinary
    restart of a finished command writes one error line.  Nothing else
    differs: the process table is as before, the unit is scheduled and
    [runAsync] returns [nil]. *)
Theorem runAsync_logs_finished_process `{Imports}
    (gcmd : command) (s : state) (p : Process) :
  (0 ≤ waitgroup s)%Z →
  spawnedProcesses s !! hash gcmd = Some p →
  processes s !! p ≠ Some Running →
  ∃ s',
    runAsync gcmd s = (Ret None, s')
    ∧ error_log s' = error_log s ++ [kill_failure p]
    ∧ processes s' = processes s
    ∧ goroutines s' = goroutines s ++ [unit_of gcmd]
    ∧ waitgroup s' = (waitgroup s + 1)%Z.
Proof.
  intros Hwg Hid Hp. rewrite runAsync_after_kill by done.
  assert (killSpawned (hash gcmd) s
          = (Ret tt, set_error_log (error_log s ++ [kill_failure p]) s))
    as ->.
  { unfold killSpawned, lookup_spawned, Process_Kill, util_Error.
    unfold_go. rewrite Hid.
    by destruct (processes s !! p) as [[| |]|]. }
  eexists. split; [done|]. done.
Qed.

Lemma runAsync_logs_finished_process_witness :
  error_log
    (@runAsync example_imports (async_command "server" "/srv" [] [])
       stale_state).2
  = [kill_failure 0].
Proof.
  destruct (@runAsync_logs_finished_process example_imports
              (async_command "server" "/srv" [] []) stale_state 0)
    as (s' & -> & Hlog & _).
  - done.
  - by vm_compute.
  - by vm_compute.
  - exact Hlog.
Defined.

(** ** More on [Inside] *)

(** X16.  Calls of [Inside] nest: with the inner call made in the callback
    of the outer one, the innermost callback runs in the inner directory,
    and when the outer call returns the working directory is the original
    one again, provided the callback leaves the directories in place. *)
Theorem Inside_nested (outer inner : string) (lambda : M unit)
    (s : state) (r : outcome unit) (s2 : state) :
  is_abs (cwd s) = true →
  is_abs outer = true →
  is_abs inner = true →
  cwd s ∈ dirs s →
  outer ∈ dirs s →
  inner ∈ dirs s →
  lambda (set_cwd inner s) = (r, s2) →
  dirs s2 = dirs s →
  Inside outer (Inside inner lambda;; mret tt) s
  = (match r with Ret _ => Ret None | Panic msg => Panic msg end,
     set_cwd (cwd s) s2).
Proof.
  intros Habs Houter Hinner Hcwd Hout Hin Hlambda Hdirs.
  assert (Inside inner lambda (set_cwd outer s)
          = (match r with Ret _ => Ret None | Panic msg => Panic msg end,
             set_cwd outer s2)) as Hinside.
  { rewrite (Inside_entered inner lambda (set_cwd outer s) r s2); simpl.
    - rewrite os_Chdir_enters; rewrite resolve_abs by done; [done|].
      by rewrite Hdirs.
    - done.
    - by rewrite resolve_abs.
    - by rewrite resolve_abs. }
  rewrite (Inside_entered outer _ s
             (match r with Ret _ => Ret tt | Panic msg => Panic msg end)
             (set_cwd outer s2)).
  - rewrite os_Chdir_enters; simpl; rewrite resolve_abs by done.
    + by destruct r.
    + by rewrite Hdirs.
  - done.
  - by rewrite resolve_abs.
  - rewrite resolve_abs by done. unfold_go. rewrite Hinside.
    by destruct r.
Qed.

Lemma Inside_nested_witness :
  Inside "/tmp" (Inside "/srv" (panic "boom");; mret tt) two_dirs
  = (Panic "boom", two_dirs).
Proof.
  apply (Inside_nested "/tmp" "/srv" (panic "boom") two_dirs
           (Panic "boom") (set_cwd "/srv" two_dirs)).
  - reflexivity.
  - reflexivity.
  - reflexivity.
  - apply (bool_decide_unpack _). by vm_compute.
  - apply (bool_decide_unpack _). by vm_compute.
  - apply (bool_decide_unpack _). by vm_compute.
  - reflexivity.
  - reflexivity.
Defined.

(** X17.  A blocking [Run] without directory argument, made in the callback
    of [Inside], runs its child with [Dir] set to the directory [Inside]
    entered: [getWd] falls back on [os.Getwd()], which reports that
    directory.  The callback has no result, so what [Run] returns is lost
    and [Inside] returns [nil]; the writes of that child are on the
    terminal. *)
Theorem Run_inside_uses_directory `{Imports} `{Host}
    (dir command : string) (s : state)
    (executable : string) (argv env : list string) :
  cwd s ∈ dirs s →
  resolve (cwd s) dir ∈ dirs s →
  splitCommand command = Ret (executable, argv, env) →
  let entered := set_cwd (resolve (cwd s) dir) s in
  let cmd := {| Path := executable; Args := executable :: argv;
                Dir := resolve (cwd s) dir; Env := effectiveEnv env;
                Stdout_of := File Stdout; Stderr_of := File Stderr |} in
  Run command [] entered
  = (Ret (child cmd entered).2,
     set_terminal (terminal s ++ (child cmd entered).1) entered)
  ∧ ∃ s',
      Inside dir (Run command [];; mret tt) s = (Ret None, s')
      ∧ terminal s' = terminal s ++ (child cmd entered).1.
Proof.
  intros Hcwd Hdir Hsplit entered cmd.
  assert (Run command [] entered
          = (Ret (child cmd entered).2,
             set_terminal (terminal s ++ (child cmd entered).1) entered))
    as HRun.
  { unfold Run, run, getWd, os_Getwd. unfold_go. simpl.
    rewrite decide_True by done. rewrite Hsplit.
    by rewrite command_run_plain. }
  split; [exact HRun|].
  eexists. split.
  - apply (Inside_entered dir _ s (Ret tt)
             (set_terminal (terminal s ++ (child cmd entered).1) entered));
      [done|done|].
    unfold_go. fold entered. by rewrite HRun.
  - unfold os_Chdir. by case_decide.
Qed.

Lemma Run_inside_uses_directory_witness :
  ∃ s',
    Inside "/broken"
      (@Run example_imports example_host "make" [];; mret tt)
      (fresh "/srv" ["/srv"; "/broken"]) = (Ret None, s')
    ∧ terminal s' = [(Stdout, "out"); (Stderr, "err")].
Proof.
  destruct (@Run_inside_uses_directory example_imports example_host
              "/broken" "make" (fresh "/srv" ["/srv"; "/broken"])
              "make" [] []) as [_ Hinside].
  - apply (bool_decide_unpack _). by vm_compute.
  - apply (bool_decide_unpack _). by vm_compute.
  - reflexivity.
  - exact Hinside.
Defined.

(** ** More on the key of a command *)

Lemma hash_unfold gcmd :
  hash gcmd = executable gcmd +:+ strings.Join (argv gcmd) ",".
Proof.
  unfold hash. case_bool_decide; [done|].
  destruct (argv gcmd); [|simpl in *; lia]. simpl. by rewrite append_empty.
Qed.

Lemma append_inv_l s t1 t2 : s +:+ t1 = s +:+ t2 → t1 = t2.
Proof.
  induction s as [|c s IH]; [done|]. rewrite !append_cons.
  intros [= Heq]. by apply IH.
Qed.

Lemma append_inv_r t : ∀ s1 s2, s1 +:+ t = s2 +:+ t → s1 = s2.
Proof.
  induction s1 as [|c s1 IH]; intros [|d s2] Heq.
  - done.
  - apply (f_equal String.length) in Heq.
    rewrite !length_append in Heq. simpl in Heq. lia.
  - apply (f_equal String.length) in Heq.
    rewrite !length_append in Heq. simpl in Heq. lia.
  - rewrite !append_cons in Heq. inversion Heq; subst. f_equal. by apply IH.
Qed.

(** X18.  The key cancels on either side: of two commands with the same key,
    those with the same arguments have the same executable, and those with
    the same executable have the same comma-joined arguments.  (Equal joined
    arguments need not be equal lists: ["a,b"] and ["a"], ["b"] join to the
    same text, so two such commands share key and executable.) *)
Theorem hash_cancels (c1 c2 : command) :
  hash c1 = hash c2 →
  (argv c1 = argv c2 → executable c1 = executable c2)
  ∧ (executable c1 = executable c2 →
     strings.Join (argv c1) "," = strings.Join (argv c2) ",").
Proof.
  rewrite !hash_unfold. intros Hhash. split.
  - intros Hargv. rewrite Hargv in Hhash. by eapply append_inv_r.
  - intros Hexe. rewrite Hexe in Hhash. by eapply append_inv_l.
Qed.

Lemma hash_cancels_witness :
  strings.Join ["a,b"] "," = strings.Join ["a"; "b"] ",".
Proof.
  apply (hash_cancels
           {| executable := "x"; argv := ["a,b"]; env := []; wd := "";
              captureOutput := false; recorder := "" |}
           {| executable := "x"; argv := ["a"; "b"]; env := ["K=V"];
              wd := "/srv"; captureOutput := true; recorder := "" |}).
  - reflexivity.
  - reflexivity.
Defined.

(** ** [toInt] *)

Lemma digit_of_bounds c d : digit_of c = Some d → (0 ≤ d ≤ 9)%Z.
Proof.
  unfold digit_of. case_bool_decide; [|done]. intros [= <-]. lia.
Qed.

Lemma digit_of_digit_char d : (0 ≤ d ≤ 9)%Z → digit_of (digit_char d) = Some d.
Proof.
  intros Hd.
  assert (d = 0 ∨ d = 1 ∨ d = 2 ∨ d = 3 ∨ d = 4 ∨ d = 5 ∨ d = 6 ∨ d = 7
          ∨ d = 8 ∨ d = 9)%Z as Hcases by lia.
  repeat destruct Hcases as [->|Hcases]; try reflexivity.
  by subst d.
Qed.

Lemma digit_char_not_sign d :
  (0 ≤ d ≤ 9)%Z → digit_char d ≠ "-"%char ∧ digit_char d ≠ "+"%char.
Proof.
  intros Hd.
  assert (d = 0 ∨ d = 1 ∨ d = 2 ∨ d = 3 ∨ d = 4 ∨ d = 5 ∨ d = 6 ∨ d = 7
          ∨ d = 8 ∨ d = 9)%Z as Hcases by lia.
  repeat destruct Hcases as [->|Hcases]; try (split; discriminate).
  subst d. split; discriminate.
Qed.

Lemma parse_digits_nonneg cs :
  ∀ acc n, (0 ≤ acc)%Z → parse_digits acc cs = Some n → (0 ≤ n)%Z.
Proof.
  induction cs as [|c cs IH]; intros acc n Hacc; simpl.
  - by intros [= <-].
  - destruct (digit_of c) as [d|] eqn:Hd; [|done].
    apply digit_of_bounds in Hd. apply IH. lia.
Qed.

Lemma parse_digits_decimal ds :
  ∀ acc,
    Forall (λ d, 0 ≤ d ≤ 9)%Z ds →
    parse_digits acc (digit_char <$> ds)
    = Some (acc * 10 ^ Z.of_nat (length ds) + decimal ds)%Z.
Proof.
  induction ds as [|d ds IH]; intros acc Hall; simpl.
  - f_equal. lia.
  - inversion_clear Hall as [|? ? Hd Hds].
    rewrite digit_of_digit_char by done. rewrite IH by done. f_equal.
    rewrite Nat2Z.inj_succ, Z.pow_succ_r by lia. lia.
Qed.

Lemma parse_digits_stops before c after :
  ∀ acc,
    digit_of c = None → parse_digits acc (before ++ c :: after) = None.
Proof.
  induction before as [|b before IH]; intros acc Hc; simpl.
  - by rewrite Hc.
  - destruct (digit_of b); [by apply IH|done].
Qed.

Lemma list_ascii_of_append s1 s2 :
  String.list_ascii_of_string (s1 +:+ s2)
  = String.list_ascii_of_string s1 ++ String.list_ascii_of_string s2.
Proof.
  induction s1 as [|c s1 IH]; [done|]. rewrite append_cons. simpl.
  by rewrite IH.
Qed.

(** X19.  [toInt] never fails and always gives a number an [int] can hold;
    where [strconv.Atoi] reports a range error and the nearest bound,
    [toInt] gives 0. *)
Theorem toInt_in_range (intSize : Z) (s : string) :
  (1 ≤ intSize)%Z →
  (- 2 ^ (intSize - 1) ≤ toInt intSize s < 2 ^ (intSize - 1))%Z
  ∧ (∀ e, (Atoi intSize s).2 = Some e → toInt intSize s = 0%Z).
Proof.
  intros Hsize.
  assert (0 < 2 ^ (intSize - 1))%Z as Hpos by (apply Z.pow_pos_nonneg; lia).
  split.
  - unfold toInt, Atoi.
    destruct (match String.list_ascii_of_string s with
              | [] => _ | c :: rest => _ end) as [neg digits].
    destruct digits as [|c digits]; [lia|].
    destruct (parse_digits 0 (c :: digits)) as [n|] eqn:Hn; [|lia].
    apply parse_digits_nonneg in Hn; [|lia].
    destruct neg; case_bool_decide; lia.
  - intros e He. unfold toInt. by destruct (Atoi intSize s) as [v [e'|]].
Qed.

Lemma toInt_in_range_witness :
  (- 2 ^ 63 ≤ toInt 64 "99999999999999999999" < 2 ^ 63)%Z
  ∧ toInt 64 "99999999999999999999" = 0%Z.
Proof.
  destruct (toInt_in_range 64 "99999999999999999999") as [Hrange Hzero];
    [lia|].
  split; [exact Hrange|]. by apply (Hzero "strconv.Atoi: value out of range").
Defined.

(** X20.  On a run of decimal digits, alone or after one sign, [toInt] gives
    the number the digits denote (leading zeros allowed), as long as an
    [int] can hold it. *)
Theorem toInt_reads_decimal (intSize : Z) (ds : list Z) :
  ds ≠ [] →
  Forall (λ d, 0 ≤ d ≤ 9)%Z ds →
  ((decimal ds < 2 ^ (intSize - 1))%Z →
     toInt intSize (digits_string ds) = decimal ds
     ∧ toInt intSize ("+" +:+ digits_string ds) = decimal ds)
  ∧ ((decimal ds ≤ 2 ^ (intSize - 1))%Z →
     toInt intSize ("-" +:+ digits_string ds) = (- decimal ds)%Z).
Proof.
  intros Hne Hall.
  assert (String.list_ascii_of_string (digits_string ds) = digit_char <$> ds)
    as Hchars by apply String.list_ascii_of_string_of_list_ascii.
  assert (parse_digits 0 (digit_char <$> ds) = Some (decimal ds)) as Hparse.
  { rewrite parse_digits_decimal by done. f_equal; lia. }
  destruct ds as [|d ds]; [done|].
  inversion Hall as [|? ? Hd Hds]; subst.
  destruct (digit_char_not_sign d Hd) as [Hminus Hplus].
  simpl fmap in Hchars, Hparse.
  set (cs := list_fmap Z ascii digit_char ds) in *.
  split.
  - intros Hfit. split.
    + unfold toInt, Atoi. rewrite Hchars. lazy beta iota.
      destruct (decide (digit_char d = "-"%char)) as [?|_]; [done|].
      destruct (decide (digit_char d = "+"%char)) as [?|_]; [done|].
      rewrite Hparse. by rewrite bool_decide_eq_true_2.
    + unfold toInt, Atoi. rewrite list_ascii_of_append, Hchars.
      change (String.list_ascii_of_string "+" ++ digit_char d :: cs)
        with ("+"%char :: digit_char d :: cs).
      lazy beta iota.
      destruct (decide ("+"%char = "-"%char)) as [?|_]; [done|].
      destruct (decide ("+"%char = "+"%char)) as [_|?]; [|done].
      rewrite Hparse. by rewrite bool_decide_eq_true_2.
  - intros Hfit.
    unfold toInt, Atoi. rewrite list_ascii_of_append, Hchars.
    change (String.list_ascii_of_string "-" ++ digit_char d :: cs)
      with ("-"%char :: digit_char d :: cs).
    lazy beta iota.
    destruct (decide ("-"%char = "-"%char)) as [_|?]; [|done].
    rewrite Hparse. by rewrite bool_decide_eq_true_2.
Qed.

Lemma toInt_reads_decimal_witness :
  toInt 64 "0042" = 42%Z ∧ toInt 64 "-0042" = (-42)%Z.
Proof.
  destruct (toInt_reads_decimal 64 [0; 0; 4; 2]%Z) as [Hpos Hneg].
  - done.
  - repeat constructor; lia.
  - split.
    + apply Hpos. by vm_compute.
    + apply Hneg. by vm_compute.
Defined.

(** X21.  [toInt] gives 0 on every string that is not a number: the empty
    string, a sign alone, and every string with a character that is neither
    a decimal digit nor a sign in first place. *)
Theorem toInt_zero_on_malformed (intSize : Z) :
  toInt intSize "" = 0%Z
  ∧ toInt intSize "-" = 0%Z
  ∧ toInt intSize "+" = 0%Z
  ∧ (∀ before c after,
       digit_of c = None →
       before ≠ "" ∨ (c ≠ "-"%char ∧ c ≠ "+"%char) →
       toInt intSize (before +:+ String c after) = 0%Z).
Proof.
  split; [done|]. split; [done|]. split; [done|].
  intros before c after Hc Hplace.
  unfold toInt, Atoi. rewrite list_ascii_of_append.
  change (String.list_ascii_of_string (String c after))
    with (c :: String.list_ascii_of_string after).
  set (post := String.list_ascii_of_string after).
  destruct before as [|b before].
  - change (String.list_ascii_of_string "" ++ c :: post) with (c :: post).
    assert (parse_digits 0 (c :: post) = None) as Hstop
      by apply (parse_digits_stops [] c post 0 Hc).
    destruct Hplace as [?|[Hminus Hplus]]; [done|].
    lazy beta iota.
    destruct (decide (c = "-"%char)) as [?|_]; [done|].
    destruct (decide (c = "+"%char)) as [?|_]; [done|].
    by rewrite Hstop.
  - change (String.list_ascii_of_string (String b before) ++ c :: post)
      with (b :: (String.list_ascii_of_string before ++ c :: post)).
    set (rest := String.list_ascii_of_string before ++ c :: post).
    assert (∀ acc, parse_digits acc rest = None) as Hrest
      by (intros acc; by apply parse_digits_stops).
    assert (parse_digits 0 (b :: rest) = None) as Hall.
    { simpl. destruct (digit_of b); [apply Hrest|done]. }
    assert (∃ x xs, rest = x :: xs) as (x & xs & Hcons).
    { unfold rest.
      destruct (String.list_ascii_of_string before); simpl; eauto. }
    lazy beta iota.
    destruct (decide (b = "-"%char)) as [?|_];
      [rewrite Hcons, <- Hcons; by rewrite Hrest|].
    destruct (decide (b = "+"%char)) as [?|_];
      [rewrite Hcons, <- Hcons; by rewrite Hrest|].
    by rewrite Hall.
Qed.

Lemma toInt_zero_on_malformed_witness :
  toInt 64 "12a" = 0%Z ∧ toInt 64 "1_000" = 0%Z ∧ toInt 64 " 7" = 0%Z.
Proof.
  destruct (toInt_zero_on_malformed 64) as (_ & _ & _ & Hbad).
  split; [|split].
  - apply (Hbad "12" "a"%char ""); [reflexivity | by left].
  - apply (Hbad "1" "_"%char "000"); [reflexivity | by left].
  - apply (Hbad "" " "%char "7"); [reflexivity | by right].
Defined.
